(** * go-flv: the FLV container reader of [flv/reader.go]

    A shallow embedding of the byte-order codec, of the buffered
    peek/skip reader ([fileReader]) and of the container reader
    ([Reader.ReadHeader], [Reader.ReadTag]), together with the part of
    Go's [bufio.Reader] and [io.LimitedReader] the file relies on.

    Conventions.
    - A Go [byte] is a [Byte.byte]; a slice is a [list byte]; slicing
      [b[k:]] is [skipn k b]; indexing out of range panics, which the
      codec functions render as [None].
    - Go's [int] is taken to be 64 bits wide, [int64] and [int] values are
      [Z]; [uint32] arithmetic carries its reduction modulo [2^32].
    - An operation on the reader returns the new state together with its
      result: the state is threaded explicitly. *)

From Stdlib Require Import ZArith List Lia Bool DecimalString DecimalN.
From Stdlib.Strings Require Import Byte Ascii.
From Stdlib.Strings Require String.
Import ListNotations.
Import String.StringSyntax.
Delimit Scope string_scope with string.
Open Scope Z_scope.

(** ** Bytes and machine integers *)

(** [int(b)], [int64(b)], [uint32(b)] for a byte [b]. *)
Definition byteZ (b : byte) : Z := Z.of_N (Byte.to_N b).

(** [uint8(v)]: the low eight bits of [v]. *)
Definition uint8 (v : Z) : byte :=
  match Byte.of_N (Z.to_N (v mod 256)) with
  | Some b => b
  | None => x00
  end.

(** Reduction of a [uint32] result. *)
Definition wrap32 (z : Z) : Z := z mod 2 ^ 32.

(** Reduction of a signed 64-bit result ([int], [int64]). *)
Definition wrap64 (z : Z) : Z := (z + 2 ^ 63) mod 2 ^ 64 - 2 ^ 63.

(** ** Byte-order codec (reader.go, lines 135-168) *)

Definition getInt24 (b : list byte) : option Z :=
  match b with
  | b0 :: b1 :: b2 :: _ =>
      Some (Z.lor (Z.lor (byteZ b2) (Z.shiftl (byteZ b1) 8))
                  (Z.shiftl (byteZ b0) 16))
  | _ => None
  end.

Definition getUint24 (b : list byte) : option Z :=
  match b with
  | b0 :: b1 :: b2 :: _ =>
      Some (Z.lor (Z.lor (byteZ b2) (wrap32 (Z.shiftl (byteZ b1) 8)))
                  (wrap32 (Z.shiftl (byteZ b0) 16)))
  | _ => None
  end.

Definition putUint24 (b : list byte) (v : Z) : option (list byte) :=
  match b with
  | _ :: _ :: _ :: tl =>
      Some (uint8 (Z.shiftr v 16) :: uint8 (Z.shiftr v 8) :: uint8 v :: tl)
  | _ => None
  end.

Definition getTime (b : list byte) : option Z :=
  match b with
  | b0 :: b1 :: b2 :: b3 :: _ =>
      Some (Z.lor (Z.lor (Z.lor (byteZ b2) (Z.shiftl (byteZ b1) 8))
                         (Z.shiftl (byteZ b0) 16))
                  (Z.shiftl (byteZ b3) 24))
  | _ => None
  end.

Definition putTime (b : list byte) (v : Z) : option (list byte) :=
  match b with
  | _ :: _ :: _ :: _ :: tl =>
      Some (uint8 (Z.shiftr v 16) :: uint8 (Z.shiftr v 8) :: uint8 v
              :: uint8 (Z.shiftr v 24) :: tl)
  | _ => None
  end.

Definition getUint32 (b : list byte) : option Z :=
  match b with
  | b0 :: b1 :: b2 :: b3 :: _ =>
      Some (Z.lor (Z.lor (Z.lor (byteZ b3) (wrap32 (Z.shiftl (byteZ b2) 8)))
                         (wrap32 (Z.shiftl (byteZ b1) 16)))
                  (wrap32 (Z.shiftl (byteZ b0) 24)))
  | _ => None
  end.

Definition putUint32 (b : list byte) (v : Z) : option (list byte) :=
  match b with
  | _ :: _ :: _ :: _ :: tl =>
      Some (uint8 (Z.shiftr v 24) :: uint8 (Z.shiftr v 16)
              :: uint8 (Z.shiftr v 8) :: uint8 v :: tl)
  | _ => None
  end.

(** ** Errors and results *)

Inductive error : Type :=
| EOF                       (* io.EOF *)
| ErrBufferFull             (* bufio.ErrBufferFull *)
| ErrNegativeCount          (* bufio.ErrNegativeCount *)
| ErrUnexpectedEOF          (* io.ErrUnexpectedEOF *)
| ErrSeek                   (* an error returned by the source's Seek *)
| ErrFormat (msg : String.string)  (* an error built by fmt.Errorf *)
| PanicIndex.               (* a run-time panic: index out of range *)

Inductive result (A : Type) : Type :=
| Ok (a : A)
| Err (e : error).
Arguments Ok {A} a.
Arguments Err {A} e.

(** ** The input source

    The byte provider handed to [NewReader].  Its contents are [data] and
    [upos] is the offset of the next byte it delivers.  A call of its
    [Read] with room for [want] bytes delivers at least one byte while
    bytes remain and otherwise reports [io.EOF]; how many bytes a call
    delivers is the source's business: [sched k] bounds what the [k]-th
    call delivers and [nreads] counts the calls made so far.  [seek] is
    the source's [Seek] method relative to the current offset
    ([io.SeekCurrent]) when its dynamic type has one: from the current
    offset and the displacement to the new offset, or a failure. *)

Definition Seeker : Type := nat -> Z -> option nat.

Record Source : Type := mkSource {
  data : list byte;
  upos : nat;
  sched : nat -> nat;
  nreads : nat;
  seek : option Seeker
}.

(** [Seek] of a regular file or of an in-memory reader: any offset that is
    not negative is accepted, also one past the end. *)
Definition file_seek : Seeker :=
  fun pos off =>
    if Z.of_nat pos + off <? 0 then None else Some (Z.to_nat (Z.of_nat pos + off)).

(** [Seek] of a descriptor that has the method but cannot seek (a pipe). *)
Definition pipe_seek : Seeker := fun _ _ => None.

(** [src.Read(p)] with [len(p) = want]; an empty result stands for
    [(0, io.EOF)]. *)
Definition src_Read (want : nat) (s : Source) : Source * list byte :=
  let avail := (length (data s) - upos s)%nat in
  let k := Nat.min (Nat.max 1 (sched s (nreads s))) (Nat.min want avail) in
  (mkSource (data s) (upos s + k) (sched s) (S (nreads s)) (seek s),
   firstn k (skipn (upos s) (data s))).

Definition src_Seek (sk : Seeker) (off : Z) (s : Source) : Source * option error :=
  match sk (upos s) off with
  | Some p => (mkSource (data s) p (sched s) (nreads s) (seek s), None)
  | None => (s, Some ErrSeek)
  end.

(** ** bufio.Reader

    The part of Go's [bufio.Reader] that reader.go calls ([Buffered],
    [Reset], [Peek], [Discard], and [Read] under the limited reader),
    after bufio.go of the standard library.  [buf] is the unread part
    [b.buf[b.r:b.w]] of the buffer, [bsize] is [len(b.buf)] and [berr] the
    error kept for the next call.  The loops of [Peek] and [Discard] run
    on fuel; [fill_until_enough] and [discard_loop_enough] show that they
    have left before it ends. *)

Record bufReader : Type := mkBuf {
  rd : Source;
  buf : list byte;
  bsize : nat;
  berr : option error
}.

Definition defaultBufSize : nat := 4096.

(** [bufio.NewReader]. *)
Definition bufio_NewReader (s : Source) : bufReader :=
  mkBuf s [] defaultBufSize None.

Definition Buffered (b : bufReader) : Z := Z.of_nat (length (buf b)).

Definition Reset (b : bufReader) (s : Source) : bufReader :=
  mkBuf s [] (bsize b) None.

Definition readErr (b : bufReader) : bufReader * option error :=
  (mkBuf (rd b) (buf b) (bsize b) None, berr b).

(** [b.fill()]: one read of the source into the free part of the buffer.
    Its callers call it only with room left in the buffer. *)
Definition fill (b : bufReader) : bufReader :=
  let (s', bs) := src_Read (bsize b - length (buf b)) (rd b) in
  mkBuf s' (buf b ++ bs) (bsize b)
        (match bs with [] => Some EOF | _ :: _ => berr b end).

(** The loop of [Peek]:
    [for b.w-b.r < n && b.w-b.r < len(b.buf) && b.err == nil { b.fill() }]. *)
Definition peek_more (n : nat) (b : bufReader) : bool :=
  (length (buf b) <? n)%nat && (length (buf b) <? bsize b)%nat
  && match berr b with None => true | Some _ => false end.

Fixpoint fill_until (fuel : nat) (n : nat) (b : bufReader) : bufReader :=
  match fuel with
  | O => b
  | S f => if peek_more n b then fill_until f n (fill b) else b
  end.

Definition Peek (n : Z) (b : bufReader) : bufReader * (list byte * option error) :=
  if n <? 0 then (b, ([], Some ErrNegativeCount))
  else
    let k := Z.to_nat n in
    let b1 := fill_until k k b in
    if (bsize b1 <? k)%nat then (b1, (buf b1, Some ErrBufferFull))
    else if (length (buf b1) <? k)%nat then
      let (b2, e) := readErr b1 in
      (b2, (buf b2, Some (match e with Some e' => e' | None => ErrBufferFull end)))
    else (b1, (firstn k (buf b1), None)).

(** The loop of [Discard]; [remain] bytes are still to be skipped. *)
Fixpoint discard_loop (fuel : nat) (remain : nat) (b : bufReader)
  : bufReader * option error :=
  match fuel with
  | O => (b, None)
  | S f =>
      let b1 := if (length (buf b) =? 0)%nat then fill b else b in
      let skip := Nat.min (length (buf b1)) remain in
      let b2 := mkBuf (rd b1) (skipn skip (buf b1)) (bsize b1) (berr b1) in
      if (remain - skip =? 0)%nat then (b2, None)
      else match berr b2 with
           | Some _ => readErr b2
           | None => discard_loop f (remain - skip) b2
           end
  end.

Definition Discard (n : Z) (b : bufReader) : bufReader * option error :=
  if n <? 0 then (b, Some ErrNegativeCount)
  else if n =? 0 then (b, None)
  else discard_loop (Z.to_nat n) (Z.to_nat n) b.

(** [b.Read(p)] with [len(p) = m]: the bytes copied into [p] and the
    error. *)
Definition bufio_Read (m : nat) (b : bufReader)
  : bufReader * (list byte * option error) :=
  if (m =? 0)%nat then
    if (0 <? length (buf b))%nat then (b, ([], None))
    else let (b', e) := readErr b in (b', ([], e))
  else
    match buf b with
    | [] =>
        match berr b with
        | Some _ => let (b', e) := readErr b in (b', ([], e))
        | None =>
            if (bsize b <=? m)%nat then
              let (s', bs) := src_Read m (rd b) in
              (mkBuf s' [] (bsize b) None,
               (bs, match bs with [] => Some EOF | _ :: _ => None end))
            else
              let (s', bs) := src_Read (bsize b) (rd b) in
              match bs with
              | [] => (mkBuf s' [] (bsize b) None, ([], Some EOF))
              | _ :: _ => (mkBuf s' (skipn m bs) (bsize b) None, (firstn m bs, None))
              end
        end
    | _ :: _ => (mkBuf (rd b) (skipn m (buf b)) (bsize b) (berr b),
                 (firstn m (buf b), None))
    end.

(** ** fileReader (reader.go, lines 77-133)

    [fb] is the buffered reader [r.b], whose source is [r.r]; [fs] is the
    seek capability [r.s] found at construction; [lN] is the counter
    [r.l.N] of the limited reader [r.l], which reads from [r.b]. *)

Record fileReader : Type := mkFile {
  fb : bufReader;
  fs : option Seeker;
  lN : Z
}.

(** What [NewReader] may be given: a source of its own, or a
    [*bufio.Reader], which is then used as it is and has no [Seek]. *)
Inductive ioReader : Type :=
| FromSource (s : Source)
| FromBufio (b : bufReader).

Definition newFileReader (r : ioReader) : fileReader :=
  match r with
  | FromBufio b => mkFile b None 0
  | FromSource s => mkFile (bufio_NewReader s) (seek s) 0
  end.

(** In [validate] the reset [r.b.Reset(r.r)] is reached only with a seek
    capability, hence only for a reader built from a source of its own,
    whose [r.r] is the source under [r.b]. *)
Definition validate (r : fileReader) : fileReader * option error :=
  if lN r <=? 0 then (r, None)
  else
    let b := Buffered (fb r) in
    let n := lN r in
    match (if b <? n then fs r else None) with
    | Some sk =>
        let fb1 := Reset (fb r) (rd (fb r)) in
        let (s', e) := src_Seek sk (n - b) (rd fb1) in
        (mkFile (mkBuf s' (buf fb1) (bsize fb1) (berr fb1)) (fs r) 0, e)
    | None =>
        let (fb1, e) := Discard n (fb r) in
        (mkFile fb1 (fs r) 0, e)
    end.

Definition next (n : Z) (r : fileReader) : fileReader * result (list byte) :=
  let (r1, e) := validate r in
  match e with
  | Some err => (r1, Err err)
  | None =>
      let '(b1, (bs, e1)) := Peek n (fb r1) in
      match e1 with
      | Some err => (mkFile b1 (fs r1) (lN r1), Err err)
      | None => (mkFile b1 (fs r1) n, Ok bs)
      end
  end.

Definition skip (n : Z) (r : fileReader) : fileReader :=
  if 0 <? n then mkFile (fb r) (fs r) (wrap64 (lN r + n)) else r.

(** [reader] returns the limited reader [r.l] itself: the result carries
    no value of its own, the payload is read with [limited_Read]. *)
Definition reader (n : Z) (r : fileReader) : fileReader * result unit :=
  let (r1, e) := validate r in
  match e with
  | Some err => (r1, Err err)
  | None => (mkFile (fb r1) (fs r1) n, Ok tt)
  end.

(** [r.l.Read(p)] with [len(p) = m] (io.LimitedReader over [r.b]). *)
Definition limited_Read (m : nat) (r : fileReader)
  : fileReader * (list byte * option error) :=
  if lN r <=? 0 then (r, ([], Some EOF))
  else
    let m' := if lN r <? Z.of_nat m then Z.to_nat (lN r) else m in
    let '(b1, (bs, e)) := bufio_Read m' (fb r) in
    (mkFile b1 (fs r) (lN r - Z.of_nat (length bs)), (bs, e)).

(** ** Container reader (reader.go, lines 10-75)

    [Reader] embeds a [*fileReader] and has no field of its own: a
    [Reader] is its [fileReader]. *)

Definition NewReader (r : ioReader) : fileReader := newFileReader r.

(** Modelled from the spec: the type [Header] is declared outside
    reader.go; the spec gives it one field, the flags byte, which
    [ReadHeader] fills from byte 4 with the literal [Header{b[4]}]. *)
Record Header : Type := mkHeader { Flags : byte }.

(** Modelled from the spec: the type [Tag] is declared outside reader.go;
    its fields and their types are those of the literal in [ReadTag]
    ([Type], here [Type_], is a byte, [Size] an int, [Time] an int64 and
    [Stream] a uint32). *)
Record Tag : Type := mkTag {
  Type_ : byte;
  Size : Z;
  Time : Z;
  Stream : Z
}.

(** Modelled from the spec: the constant [signature] is declared outside
    reader.go; the spec and the comment of [ReadHeader] give the three
    bytes 0x46 0x4C 0x56 ("FLV"), read as a 24-bit big-endian number. *)
Definition signature : Z := 0x464C56.

(** [hex.EncodeToString]: two lower-case hexadecimal digits per byte. *)
Definition hexdigit (n : N) : ascii :=
  ascii_of_N (if (n <? 10)%N then 48 + n else 87 + n)%N.

Fixpoint EncodeToString (bs : list byte) : String.string :=
  match bs with
  | [] => String.EmptyString
  | b :: tl =>
      String.String (hexdigit (Byte.to_N b / 16))
        (String.String (hexdigit (Byte.to_N b mod 16)) (EncodeToString tl))
  end.

(** The verb [%x] of package fmt applied to a string: the hexadecimal
    digits of the string's bytes. *)
Definition fmt_x (s : String.string) : String.string :=
  EncodeToString (String.list_byte_of_string s).

(** The verb [%d] applied to a byte. *)
Definition fmt_d (b : byte) : String.string :=
  NilEmpty.string_of_uint (N.to_uint (Byte.to_N b)).

Definition errSignature (b : list byte) : error :=
  ErrFormat (String.append "flv: incorrect signature: 0x"
                           (fmt_x (EncodeToString (firstn 3 b)))).

Definition errVersion (v : byte) : error :=
  ErrFormat (String.append "flv: unsupported version: " (fmt_d v)).

Definition ReadHeader (r : fileReader) : fileReader * result Header :=
  let (r1, res) := next 9 r in
  match res with
  | Err e => (r1, Err e)
  | Ok b =>
      match getUint24 b with
      | None => (r1, Err PanicIndex)
      | Some sig =>
          if negb (sig =? signature) then (r1, Err (errSignature b))
          else
            match nth_error b 3 with
            | None => (r1, Err PanicIndex)
            | Some ver =>
                if negb (byteZ ver =? 1) then (r1, Err (errVersion ver))
                else
                  match getUint32 (skipn 5 b), nth_error b 4 with
                  | Some hlen, Some flags =>
                      (skip (hlen - 9) r1, Ok (mkHeader flags))
                  | _, _ => (r1, Err PanicIndex)
                  end
            end
      end
  end.

(** The payload reader returned next to the tag is [r.l]: the payload is
    read from the state with [limited_Read]. *)
Definition ReadTag (r : fileReader) : fileReader * result Tag :=
  let (r1, res) := next 15 r in
  match res with
  | Err e => (r1, Err e)
  | Ok b =>
      match nth_error b 4, getInt24 (skipn 5 b), getTime (skipn 8 b),
            getUint24 (skipn 12 b) with
      | Some ty, Some size, Some time, Some stream =>
          let tag := mkTag ty size time stream in
          let (r2, res2) := reader (Size tag) r1 in
          match res2 with
          | Err e => (r2, Err e)
          | Ok _ => (r2, Ok tag)
          end
      | _, _, _, _ => (r1, Err PanicIndex)
      end
  end.

(** ** The logical input of a reader

    What a buffered reader has still to deliver: the unread part of its
    buffer followed by what its source has not yet delivered. *)

Definition srest (s : Source) : list byte := skipn (upos s) (data s).

Definition rest (b : bufReader) : list byte := buf b ++ srest (rd b).

(** A buffered reader between two calls: no error is kept, and its buffer
    has at least the 16 bytes bufio gives every reader. *)
Definition buf_ok (b : bufReader) : Prop :=
  berr b = None /\ (16 <= bsize b)%nat.

(** [moved j b b']: [b'] is [b] after [j] more bytes of the logical input
    were consumed; the source's contents and the buffer size are those of
    [b]. *)
Definition moved (j : nat) (b b' : bufReader) : Prop :=
  data (rd b') = data (rd b) /\ bsize b' = bsize b /\
  rest b' = skipn j (rest b).

(** [at_pos p b]: the reader [b] stands at byte offset [p] of its source's
    contents: it will deliver the contents from offset [p] on. *)
Definition at_pos (p : nat) (b : bufReader) : Prop :=
  rest b = skipn p (data (rd b)).

(** A [fileReader] between two calls. *)
Definition file_ok (r : fileReader) : Prop := buf_ok (fb r).

(** The seek capability, when there is one, is that of a regular file. *)
Definition std_seek (r : fileReader) : Prop :=
  fs r = None \/ fs r = Some file_seek.

(** [cursor_at q r]: the reader stands at some offset [p] of the input and
    [p] plus the pending count [r.l.N] is [q]: once the pending bytes are
    skipped, the next byte it delivers is the one at offset [q]. *)
Definition cursor_at (q : nat) (r : fileReader) : Prop :=
  exists p : nat, at_pos p (fb r) /\ 0 <= lN r /\
                  Z.of_nat p + lN r = Z.of_nat q.

(** ** A sample input

    A nine-byte header, two tags (a video tag with five payload bytes and
    an audio tag with two) and the closing four bytes. *)

Definition sample_header : list byte :=
  [x46; x4c; x56; x01; x05; x00; x00; x00; x09].

Definition sample_region1 : list byte :=
  [x00; x00; x00; x00; x09; x00; x00; x05; x00; x00; x00; x00; x00; x00; x00].

Definition sample_payload1 : list byte := [x0a; x0b; x0c; x0d; x0e].

Definition sample_region2 : list byte :=
  [x00; x00; x00; x10; x08; x00; x00; x02; x00; x00; x21; x00; x00; x00; x00].

Definition sample_payload2 : list byte := [x01; x02].

Definition sample_trailer : list byte := [x00; x00; x00; x0d].

Definition sample_file : list byte :=
  sample_header ++ (sample_region1 ++ sample_payload1)
                ++ (sample_region2 ++ sample_payload2) ++ sample_trailer.

(** A source over [contents] that delivers at most seven bytes a call. *)
Definition sample_source (contents : list byte) (sk : option Seeker) : Source :=
  mkSource contents 0 (fun _ => 7%nat) 0 sk.

Definition sample_reader (sk : option Seeker) : fileReader :=
  newFileReader (FromSource (sample_source sample_file sk)).

(** Big-endian values of three and of four bytes, as sums. *)
Definition be24 (b0 b1 b2 : byte) : Z :=
  byteZ b2 + byteZ b1 * 2 ^ 8 + byteZ b0 * 2 ^ 16.

Definition be32 (b0 b1 b2 b3 : byte) : Z :=
  byteZ b3 + byteZ b2 * 2 ^ 8 + byteZ b1 * 2 ^ 16 + byteZ b0 * 2 ^ 24.

(** The tag that the fifteen bytes [b] of a tag's fixed region denote:
    four bytes of previous-tag size, then type, size, time and stream. *)
Definition tag_of_region (b : list byte) : option Tag :=
  match nth_error b 4, getInt24 (skipn 5 b), getTime (skipn 8 b),
        getUint24 (skipn 12 b) with
  | Some ty, Some size, Some time, Some stream =>
      Some (mkTag ty size time stream)
  | _, _, _, _ => None
  end.

(** A header that declares eleven bytes, its two extra bytes, one tag. *)
Definition sample_long_file : list byte :=
  [x46; x4c; x56; x01; x05; x00; x00; x00; x0b; xff; xff]
    ++ sample_region1 ++ sample_payload1.

(** The states of a reader in use: a new reader, and what [ReadHeader],
    [ReadTag] and a read of the payload stream make of such a state,
    whatever they return. *)
Inductive reachable : fileReader -> Prop :=
| reach_new (io : ioReader) : reachable (newFileReader io)
| reach_header (r : fileReader) : reachable r -> reachable (fst (ReadHeader r))
| reach_tag (r : fileReader) : reachable r -> reachable (fst (ReadTag r))
| reach_payload (m : nat) (r : fileReader) :
    reachable r -> reachable (fst (limited_Read m r)).

(** ** Tags in a file and a caller that reads them

    A tag as it lies in the input: the fifteen bytes of its fixed region
    and its payload, whose length the region's size field gives. *)
Definition TagBytes : Type := (list byte * list byte)%type.

Definition tag_ok (t : TagBytes) : Prop :=
  length (fst t) = 15%nat /\
  getInt24 (skipn 5 (fst t)) = Some (Z.of_nat (length (snd t))).

Fixpoint body (ts : list TagBytes) : list byte :=
  match ts with
  | [] => []
  | t :: tl => fst t ++ snd t ++ body tl
  end.

(** The offsets at which the fixed regions of [ts] begin, the first one
    at [q]. *)
Fixpoint tag_starts (q : nat) (ts : list TagBytes) : list nat :=
  match ts with
  | [] => []
  | t :: tl => q :: tag_starts (q + 15 + length (snd t)) tl
  end.

(** What a caller does with a payload stream: a list of calls of its
    [Read], given by the lengths of the buffers passed.  The empty list
    leaves the payload unread. *)
Fixpoint read_payload (ms : list nat) (r : fileReader) : fileReader :=
  match ms with
  | [] => r
  | m :: ms' => read_payload ms' (fst (limited_Read m r))
  end.

(** One [ReadTag] per entry of [plan], each followed by the reads of the
    payload stream that the entry lists.  The log holds, per call, the
    state in which [ReadTag] was called and what it returned. *)
Fixpoint read_tags (plan : list (list nat)) (r : fileReader)
  : list (fileReader * result Tag) * fileReader :=
  match plan with
  | [] => ([], r)
  | ms :: plan' =>
      let (r1, res) := ReadTag r in
      let (log, r2) := read_tags plan' (read_payload ms r1) in
      ((r, res) :: log, r2)
  end.

Definition result_size (res : result Tag) : option Z :=
  match res with
  | Ok t => Some (Size t)
  | Err _ => None
  end.

(** ** A caller of the whole interface

    [io.ReadFull(r.l, p)] with [len(p) = m]: calls of the payload stream's
    [Read] until [m] bytes are there or an error comes. *)
Fixpoint readFull_loop (fuel : nat) (want : nat) (acc : list byte)
         (r : fileReader) : fileReader * (list byte * option error) :=
  match fuel with
  | O => (r, (acc, None))
  | S f =>
      if (length acc <? want)%nat then
        let '(r1, (bs, e)) := limited_Read (want - length acc) r in
        match e with
        | Some err => (r1, (acc ++ bs, Some err))
        | None => readFull_loop f want (acc ++ bs) r1
        end
      else (r, (acc, None))
  end.

Definition ReadFull (m : nat) (r : fileReader)
  : fileReader * (list byte * option error) :=
  let '(r1, (bs, e)) := readFull_loop m m [] r in
  (r1, (bs, if (m <=? length bs)%nat then None
            else match e with
                 | Some EOF =>
                     if (0 <? length bs)%nat then Some ErrUnexpectedEOF
                     else Some EOF
                 | _ => e
                 end)).

(** The calls a caller can make and what it sees of each. *)
Inductive op : Type :=
| OpHeader               (* ReadHeader *)
| OpTag                  (* ReadTag *)
| OpPayload (m : nat).   (* io.ReadFull of m bytes from the payload stream *)

Inductive obs : Type :=
| ObsHeader (res : result Header)
| ObsTag (res : result Tag)
| ObsPayload (bs : list byte) (e : option error).

Definition step (o : op) (r : fileReader) : fileReader * obs :=
  match o with
  | OpHeader => let (r1, res) := ReadHeader r in (r1, ObsHeader res)
  | OpTag => let (r1, res) := ReadTag r in (r1, ObsTag res)
  | OpPayload m => let '(r1, (bs, e)) := ReadFull m r in (r1, ObsPayload bs e)
  end.

Fixpoint run (script : list op) (r : fileReader) : list obs :=
  match script with
  | [] => []
  | o :: script' => let (r1, ob) := step o r in ob :: run script' r1
  end.

(** Two readers show the same to their caller: both are in order, they
    have the same logical input left and the same pending count. *)
Definition same_view (r r' : fileReader) : Prop :=
  file_ok r /\ file_ok r' /\ std_seek r /\ std_seek r' /\
  rest (fb r) = rest (fb r') /\ lN r = lN r'.

(** A reader that is in order, at cursor [q] of the contents [d]. *)
Definition reading (d : list byte) (sk : option Seeker) (q : nat)
           (r : fileReader) : Prop :=
  file_ok r /\ fs r = sk /\ data (rd (fb r)) = d /\ cursor_at q r.

(** [ReadTag] called [n] times in a row, its results dropped. *)
Definition ReadTag_again (n : nat) (r : fileReader) : fileReader :=
  Nat.iter n (fun x => fst (ReadTag x)) r.

(** A reader in order with nothing pending and fewer than the fifteen
    bytes of a tag's fixed region left to deliver. *)
Definition at_end (r : fileReader) : Prop :=
  file_ok r /\ std_seek r /\ lN r <= 0 /\
  (length (rest (fb r)) < 15)%nat.

(** * Properties *)

(** ** Facts about bytes *)

Lemma byteZ_range (b : byte) : 0 <= byteZ b < 256.
Proof.
  unfold byteZ. pose proof (Byte.to_N_bounded b) as H.
  split; [apply N2Z.is_nonneg | lia].
Qed.

Lemma byteZ_uint8 (v : Z) : byteZ (uint8 v) = v mod 256.
Proof.
  unfold byteZ, uint8.
  assert (Hr : 0 <= v mod 256 < 256) by (apply Z.mod_pos_bound; lia).
  destruct (Byte.of_N (Z.to_N (v mod 256))) as [b|] eqn:E.
  - apply Byte.to_of_N in E. rewrite E. lia.
  - apply Byte.of_N_None_iff in E. lia.
Qed.

Lemma byteZ_inj (a b : byte) : byteZ a = byteZ b -> a = b.
Proof.
  unfold byteZ. intros H. apply N2Z.inj in H.
  assert (E : Byte.of_N (Byte.to_N a) = Byte.of_N (Byte.to_N b)) by now rewrite H.
  rewrite !Byte.of_to_N in E. now inversion E.
Qed.

(** A value below [2^k] shares no bit with a multiple of [2^k]. *)
Lemma land_low_high (lo hi k : Z) :
  0 <= k -> 0 <= lo < 2 ^ k -> Z.land lo (hi * 2 ^ k) = 0.
Proof.
  intros Hk Hlo. apply Z.bits_inj'. intros n Hn.
  rewrite Z.land_spec, Z.bits_0.
  destruct (Z.lt_ge_cases n k) as [Hlt|Hge].
  - rewrite Z.mul_pow2_bits_low by lia. apply andb_false_r.
  - rewrite <- (Z.mod_small lo (2 ^ k)) by lia.
    rewrite Z.mod_pow2_bits_high by lia. reflexivity.
Qed.

(** A disjunction of a value below [2^k] with a value shifted by [k] is
    their sum. *)
Lemma lor_shiftl_add (lo hi k : Z) :
  0 <= k -> 0 <= lo < 2 ^ k -> Z.lor lo (Z.shiftl hi k) = lo + hi * 2 ^ k.
Proof.
  intros Hk Hlo.
  rewrite Z.shiftl_mul_pow2 by lia.
  rewrite <- Z.lxor_lor by (apply land_low_high; lia).
  rewrite <- Z.add_nocarry_lxor by (apply land_low_high; lia).
  reflexivity.
Qed.

(** The decoders as sums. *)
Lemma getInt24_sum (b0 b1 b2 : byte) (tl : list byte) :
  getInt24 (b0 :: b1 :: b2 :: tl)
  = Some (byteZ b2 + byteZ b1 * 2 ^ 8 + byteZ b0 * 2 ^ 16).
Proof.
  pose proof (byteZ_range b0). pose proof (byteZ_range b1).
  pose proof (byteZ_range b2).
  unfold getInt24.
  rewrite (lor_shiftl_add (byteZ b2)) by lia.
  rewrite lor_shiftl_add by lia.
  reflexivity.
Qed.

Lemma getTime_sum (b0 b1 b2 b3 : byte) (tl : list byte) :
  getTime (b0 :: b1 :: b2 :: b3 :: tl)
  = Some (byteZ b2 + byteZ b1 * 2 ^ 8 + byteZ b0 * 2 ^ 16 + byteZ b3 * 2 ^ 24).
Proof.
  pose proof (byteZ_range b0). pose proof (byteZ_range b1).
  pose proof (byteZ_range b2). pose proof (byteZ_range b3).
  unfold getTime.
  rewrite (lor_shiftl_add (byteZ b2)) by lia.
  rewrite (lor_shiftl_add _ (byteZ b0)) by lia.
  rewrite lor_shiftl_add by lia.
  reflexivity.
Qed.

Lemma wrap32_small (z : Z) : 0 <= z < 2 ^ 32 -> wrap32 z = z.
Proof. intros H. unfold wrap32. apply Z.mod_small; exact H. Qed.

Lemma getUint24_sum (b0 b1 b2 : byte) (tl : list byte) :
  getUint24 (b0 :: b1 :: b2 :: tl)
  = Some (byteZ b2 + byteZ b1 * 2 ^ 8 + byteZ b0 * 2 ^ 16).
Proof.
  pose proof (byteZ_range b0). pose proof (byteZ_range b1).
  pose proof (byteZ_range b2).
  unfold getUint24.
  rewrite !wrap32_small by (rewrite Z.shiftl_mul_pow2 by lia; lia).
  rewrite (lor_shiftl_add (byteZ b2)) by lia.
  rewrite lor_shiftl_add by lia.
  reflexivity.
Qed.

Lemma getUint32_sum (b0 b1 b2 b3 : byte) (tl : list byte) :
  getUint32 (b0 :: b1 :: b2 :: b3 :: tl)
  = Some (byteZ b3 + byteZ b2 * 2 ^ 8 + byteZ b1 * 2 ^ 16 + byteZ b0 * 2 ^ 24).
Proof.
  pose proof (byteZ_range b0). pose proof (byteZ_range b1).
  pose proof (byteZ_range b2). pose proof (byteZ_range b3).
  unfold getUint32.
  rewrite !wrap32_small by (rewrite Z.shiftl_mul_pow2 by lia; lia).
  rewrite (lor_shiftl_add (byteZ b3)) by lia.
  rewrite (lor_shiftl_add _ (byteZ b1)) by lia.
  rewrite lor_shiftl_add by lia.
  reflexivity.
Qed.

(** The four bytes written by [putTime] recombine to the value. *)
Lemma time_bytes_recombine (v : Z) :
  0 <= v < 2 ^ 32 ->
  v mod 256 + (Z.shiftr v 8) mod 256 * 2 ^ 8
  + (Z.shiftr v 16) mod 256 * 2 ^ 16 + (Z.shiftr v 24) mod 256 * 2 ^ 24 = v.
Proof.
  intros Hv.
  rewrite !Z.shiftr_div_pow2 by lia.
  change (2 ^ 8) with 256. change (2 ^ 16) with 65536.
  change (2 ^ 24) with 16777216. change (2 ^ 32) with 4294967296 in Hv.
  pose proof (Z.div_mod v 256 ltac:(lia)).
  pose proof (Z.div_mod (v / 256) 256 ltac:(lia)).
  pose proof (Z.div_mod (v / 256 / 256) 256 ltac:(lia)).
  assert (E1 : v / 65536 = v / 256 / 256)
    by (rewrite Z.div_div by lia; reflexivity).
  assert (E2 : v / 16777216 = v / 256 / 256 / 256)
    by (rewrite !Z.div_div by lia; reflexivity).
  rewrite E1, E2.
  assert (0 <= v / 256 / 256 / 256 < 256).
  { rewrite !Z.div_div by lia. split.
    - apply Z.div_pos; lia.
    - apply Z.div_lt_upper_bound; lia. }
  rewrite (Z.mod_small (v / 256 / 256 / 256)) by lia.
  lia.
Qed.

(** ** The source *)

Lemma src_Read_spec (want : nat) (s : Source) :
  forall s' bs, src_Read want s = (s', bs) ->
    bs ++ srest s' = srest s /\
    data s' = data s /\ seek s' = seek s /\
    upos s' = (upos s + length bs)%nat /\
    (length bs <= want)%nat /\
    ((0 < want)%nat -> srest s <> [] -> bs <> []).
Proof.
  intros s' bs H. unfold src_Read in H.
  set (mx := Nat.max 1 _) in H.
  assert (Hmx : (1 <= mx)%nat) by (subst mx; lia). clearbody mx.
  injection H as <- <-.
  unfold srest; cbn [data upos seek].
  set (k := Nat.min _ _).
  assert (Hk : (k <= want /\ k <= length (data s) - upos s)%nat)
    by (subst k; lia).
  assert (Hlen : length (firstn k (skipn (upos s) (data s))) = k).
  { rewrite length_firstn, length_skipn. lia. }
  repeat split.
  - rewrite Nat.add_comm, <- skipn_skipn. apply firstn_skipn.
  - rewrite Hlen. reflexivity.
  - rewrite Hlen. lia.
  - intros Hw Hne Hnil.
    assert (Hl : (0 < length (skipn (upos s) (data s)))%nat)
      by (destruct (skipn (upos s) (data s)); [congruence | cbn; lia]).
    rewrite length_skipn in Hl.
    apply (f_equal (@length byte)) in Hnil. rewrite Hlen in Hnil.
    cbn in Hnil. subst k. lia.
Qed.

(** ** bufio.Reader *)

Lemma moved_refl (b : bufReader) : moved 0 b b.
Proof. repeat split. Qed.

Lemma moved_trans (j k : nat) (b b' b'' : bufReader) :
  moved j b b' -> moved k b' b'' -> moved (j + k) b b''.
Proof.
  intros (Hd & Hs & Hr) (Hd' & Hs' & Hr'). repeat split; try congruence.
  rewrite Hr', Hr, skipn_skipn. f_equal. lia.
Qed.

Lemma moved_at_pos (j p : nat) (b b' : bufReader) :
  moved j b b' -> at_pos p b -> at_pos (p + j) b'.
Proof.
  intros (Hd & _ & Hr) Hp. unfold at_pos in *.
  rewrite Hr, Hp, Hd, skipn_skipn. f_equal. lia.
Qed.

Lemma fill_spec (b : bufReader) :
  (length (buf b) < bsize b)%nat ->
  moved 0 b (fill b) /\
  ((berr (fill b) = berr b /\ (length (buf b) < length (buf (fill b)))%nat) \/
   (berr (fill b) = Some EOF /\ buf (fill b) = buf b /\ srest (rd (fill b)) = [])).
Proof.
  intros Hlt. unfold fill.
  destruct (src_Read (bsize b - length (buf b)) (rd b)) as [s' bs] eqn:E.
  destruct (src_Read_spec _ _ _ _ E) as (Hsp & Hd & _ & _ & _ & Hne).
  unfold moved, rest; cbn [rd buf bsize berr skipn].
  split; [repeat split; [exact Hd|]|].
  - rewrite <- app_assoc, Hsp. reflexivity.
  - destruct bs as [|x bs].
    + right. cbn in Hsp. rewrite app_nil_r. repeat split.
      rewrite Hsp. destruct (srest (rd b)) eqn:Es; [reflexivity|].
      exfalso. apply Hne; [lia | discriminate | reflexivity].
    + left. split; [reflexivity|]. rewrite length_app. cbn. lia.
Qed.

Lemma fill_until_stuck (fuel n : nat) (b : bufReader) :
  peek_more n b = false -> fill_until fuel n b = b.
Proof. intros H. destruct fuel; cbn; [reflexivity | now rewrite H]. Qed.

Lemma fill_until_spec (fuel n : nat) :
  forall b, berr b = None -> (n <= bsize b)%nat ->
    (n <= fuel + length (buf b))%nat ->
    let b1 := fill_until fuel n b in
    moved 0 b b1 /\
    ((berr b1 = None /\ (n <= length (buf b1))%nat) \/
     (berr b1 = Some EOF /\ (length (buf b1) < n)%nat /\ srest (rd b1) = [])).
Proof.
  induction fuel as [|f IH]; intros b He Hn Hf; cbn [fill_until].
  - split; [apply moved_refl|]. left. split; [exact He | lia].
  - destruct (peek_more n b) eqn:Hm.
    + unfold peek_more in Hm. rewrite He in Hm.
      rewrite !andb_true_r in Hm. apply andb_true_iff in Hm as [H1 H2].
      apply Nat.ltb_lt in H1, H2.
      destruct (fill_spec b H2) as (Hmv & [[Hb Hl] | (Hb & Hbuf & Hs)]).
      * assert (Hsz : bsize (fill b) = bsize b) by apply Hmv.
        destruct (IH (fill b)) as (Hmv' & Hres);
          [congruence | lia | lia |].
        split; [|exact Hres].
        change 0%nat with (0 + 0)%nat. eapply moved_trans; eassumption.
      * rewrite fill_until_stuck
          by (unfold peek_more; rewrite Hb; apply andb_false_r).
        split; [exact Hmv|]. right. repeat split; [exact Hb | | exact Hs].
        rewrite Hbuf. exact H1.
    + split; [apply moved_refl|]. left. split; [exact He|].
      unfold peek_more in Hm. rewrite He, andb_true_r in Hm.
      apply andb_false_iff in Hm as [H|H]; apply Nat.ltb_ge in H; lia.
Qed.

(** The loop of [Peek] has left when its fuel ends: more fuel changes
    nothing. *)
Lemma fill_until_enough (n k : nat) (b : bufReader) :
  berr b = None -> (n <= bsize b)%nat ->
  fill_until (n + k) n b = fill_until n n b.
Proof.
  intros He Hn.
  assert (G : forall fuel b, berr b = None -> (n <= bsize b)%nat ->
            (n <= fuel + length (buf b))%nat ->
            fill_until (fuel + k) n b = fill_until fuel n b).
  { clear b He Hn. induction fuel as [|f IH]; intros b He Hn Hf.
    - cbn [fill_until Nat.add]. apply fill_until_stuck.
      unfold peek_more. replace (length (buf b) <? n)%nat with false;
        [reflexivity | symmetry; apply Nat.ltb_ge; lia].
    - cbn [Nat.add fill_until]. destruct (peek_more n b) eqn:Hm; [|reflexivity].
      unfold peek_more in Hm. rewrite He in Hm.
      rewrite !andb_true_r in Hm. apply andb_true_iff in Hm as [H1 H2].
      apply Nat.ltb_lt in H1, H2.
      destruct (fill_spec b H2) as (Hmv & [[Hb Hl] | (Hb & Hbuf & Hs)]).
      + apply IH; [congruence | | lia].
        replace (bsize (fill b)) with (bsize b); [exact Hn|].
        symmetry; apply Hmv.
      + rewrite !fill_until_stuck
          by (unfold peek_more; rewrite Hb; apply andb_false_r).
        reflexivity. }
  apply G; [exact He | exact Hn | lia].
Qed.

Lemma firstn_app_le {A} (n : nat) (l1 l2 : list A) :
  (n <= length l1)%nat -> firstn n (l1 ++ l2) = firstn n l1.
Proof.
  intros H. rewrite firstn_app.
  replace (n - length l1)%nat with 0%nat by lia.
  cbn. apply app_nil_r.
Qed.

Lemma skipn_app_le {A} (n : nat) (l1 l2 : list A) :
  (n <= length l1)%nat -> skipn n (l1 ++ l2) = skipn n l1 ++ l2.
Proof.
  intros H. rewrite skipn_app.
  replace (n - length l1)%nat with 0%nat by lia. reflexivity.
Qed.

Lemma firstn_length_firstn {A} (m : nat) (l : list A) :
  firstn (length (firstn m l)) l = firstn m l.
Proof.
  rewrite length_firstn. destruct (Nat.le_gt_cases m (length l)).
  - now rewrite Nat.min_l by lia.
  - rewrite Nat.min_r by lia. now rewrite firstn_all, firstn_all2 by lia.
Qed.

Lemma skipn_length_firstn {A} (m : nat) (l : list A) :
  skipn (length (firstn m l)) l = skipn m l.
Proof.
  rewrite length_firstn. destruct (Nat.le_gt_cases m (length l)).
  - now rewrite Nat.min_l by lia.
  - rewrite Nat.min_r by lia. now rewrite !skipn_all2 by lia.
Qed.

Lemma Peek_spec (n : Z) (b b1 : bufReader) (bs : list byte) (e : option error) :
  buf_ok b -> 0 <= n -> (Z.to_nat n <= bsize b)%nat ->
  Peek n b = (b1, (bs, e)) ->
  moved 0 b b1 /\ buf_ok b1 /\
  ((n <= Z.of_nat (length (rest b)) /\ bs = firstn (Z.to_nat n) (rest b) /\
    e = None /\ n <= Z.of_nat (length (buf b1))) \/
   (Z.of_nat (length (rest b)) < n /\ e = Some EOF)).
Proof.
  intros [He Hsz] Hn Hle H. unfold Peek in H.
  replace (n <? 0) with false in H by (symmetry; apply Z.ltb_ge; lia).
  set (k := Z.to_nat n) in *.
  destruct (fill_until_spec k k b He Hle ltac:(lia)) as (Hmv & Hres).
  set (b' := fill_until k k b) in *.
  assert (Hsz' : bsize b' = bsize b) by apply Hmv.
  assert (Hrest : rest b' = rest b) by apply Hmv.
  replace (bsize b' <? k)%nat with false in H
    by (symmetry; apply Nat.ltb_ge; lia).
  destruct Hres as [[Hb Hl] | (Hb & Hl & Hs)].
  - replace (length (buf b') <? k)%nat with false in H
      by (symmetry; apply Nat.ltb_ge; lia).
    injection H as <- <- <-.
    split; [exact Hmv|]. split; [split; [exact Hb | lia]|].
    left. rewrite <- Hrest. unfold rest at 1 2. rewrite length_app.
    rewrite firstn_app_le by lia. repeat split; lia.
  - replace (length (buf b') <? k)%nat with true in H
      by (symmetry; apply Nat.ltb_lt; lia).
    cbn [readErr buf] in H. rewrite Hb in H. injection H as <- <- <-.
    split; [|split].
    + destruct Hmv as (H1 & H2 & H3). repeat split; assumption.
    + split; [reflexivity | cbn; lia].
    + right. split; [|reflexivity].
      rewrite <- Hrest. unfold rest. rewrite Hs, app_nil_r. lia.
Qed.

Lemma rest_drop_buffered (b : bufReader) (k : nat) :
  (k <= length (buf b))%nat ->
  moved k b (mkBuf (rd b) (skipn k (buf b)) (bsize b) (berr b)).
Proof.
  intros H. unfold moved, rest; cbn [rd buf bsize].
  repeat split. rewrite skipn_app_le by exact H. reflexivity.
Qed.

Lemma discard_loop_spec (fuel : nat) :
  forall remain b b1 e,
    berr b = None -> (1 <= bsize b)%nat ->
    (0 < remain <= fuel)%nat ->
    discard_loop fuel remain b = (b1, e) ->
    berr b1 = None /\
    ((remain <= length (rest b))%nat /\ moved remain b b1 /\ e = None \/
     (length (rest b) < remain)%nat /\ moved (length (rest b)) b b1 /\
     e = Some EOF).
Proof.
  induction fuel as [|f IH]; intros remain b b1 e He Hsz Hr H; [lia|].
  cbn [discard_loop] in H.
  set (b0 := if (length (buf b) =? 0)%nat then fill b else b) in *.
  assert (Hb0 : moved 0 b b0 /\
                ((berr b0 = None /\ (0 < length (buf b0))%nat) \/
                 (berr b0 = Some EOF /\ buf b0 = [] /\ srest (rd b0) = []))).
  { subst b0. destruct (length (buf b) =? 0)%nat eqn:E.
    - apply Nat.eqb_eq in E.
      destruct (fill_spec b ltac:(lia)) as (Hmv & [[Hb Hl] | (Hb & Hbuf & Hs)]).
      + split; [exact Hmv|]. left. split; [congruence | lia].
      + split; [exact Hmv|]. right. repeat split; try assumption.
        rewrite Hbuf. now apply length_zero_iff_nil.
    - apply Nat.eqb_neq in E. split; [apply moved_refl|]. left.
      split; [exact He | lia]. }
  clearbody b0. destruct Hb0 as (Hmv0 & Hcase).
  assert (Hrest0 : rest b0 = rest b) by apply Hmv0.
  assert (Hsz0 : bsize b0 = bsize b) by apply Hmv0.
  destruct Hcase as [[He0 Hl0] | (He0 & Hbuf0 & Hs0)].
  - set (sk := Nat.min (length (buf b0)) remain) in *.
    assert (Hsk : (0 < sk <= remain /\ sk <= length (buf b0))%nat)
      by (subst sk; lia).
    pose proof (rest_drop_buffered b0 sk ltac:(lia)) as Hmv2.
    set (b2 := mkBuf (rd b0) (skipn sk (buf b0)) (bsize b0) (berr b0)) in *.
    assert (Hmv : moved sk b b2)
      by (change sk with (0 + sk)%nat; eapply moved_trans; eassumption).
    assert (Hlen : (sk <= length (rest b))%nat).
    { rewrite <- Hrest0. unfold rest. rewrite length_app. lia. }
    destruct (remain - sk =? 0)%nat eqn:E.
    + apply Nat.eqb_eq in E. injection H as <- <-.
      split; [exact He0|]. left.
      replace remain with sk by lia. repeat split; try apply Hmv. exact Hlen.
    + apply Nat.eqb_neq in E.
      change (berr b2) with (berr b0) in H. rewrite He0 in H.
      destruct (IH (remain - sk)%nat b2 b1 e) as (Hb1 & Hres);
        [exact He0 | cbn; lia | lia | exact H |].
      split; [exact Hb1|].
      assert (Hr2 : length (rest b2) = (length (rest b) - sk)%nat).
      { destruct Hmv as (_ & _ & ->). apply length_skipn. }
      destruct Hres as [(Hle & Hm & ->) | (Hlt & Hm & ->)].
      * left. repeat split; [lia | | | ]; try apply Hm; try congruence.
        -- destruct Hm as (-> & _). apply Hmv.
        -- destruct Hm as (_ & -> & _). apply Hmv.
        -- replace remain with (sk + (remain - sk))%nat at 1 by lia.
           apply (moved_trans _ _ _ _ _ Hmv Hm).
      * right. split; [lia|]. split; [|reflexivity].
        replace (length (rest b)) with (sk + length (rest b2))%nat by lia.
        apply (moved_trans _ _ _ _ _ Hmv Hm).
  - assert (Hnil : rest b = []).
    { rewrite <- Hrest0. unfold rest. now rewrite Hbuf0, Hs0. }
    rewrite Hbuf0 in H. cbn [length Nat.min skipn] in H.
    rewrite Nat.sub_0_r in H.
    replace (remain =? 0)%nat with false in H
      by (symmetry; apply Nat.eqb_neq; lia).
    cbn [berr readErr rd buf bsize] in H. rewrite He0 in H.
    injection H as <- <-. split; [reflexivity|]. right.
    rewrite Hnil. cbn [length]. split; [lia|]. split; [|reflexivity].
    destruct Hmv0 as (Hd & Hs & Hq). unfold moved, rest in *.
    cbn [rd buf bsize] in *. rewrite Hbuf0 in Hq. repeat split; assumption.
Qed.

(** The loop of [Discard] has returned when its fuel ends: more fuel
    changes nothing. *)
Lemma discard_loop_enough (fuel : nat) :
  forall remain k b,
    berr b = None -> (1 <= bsize b)%nat -> (0 < remain <= fuel)%nat ->
    discard_loop (fuel + k) remain b = discard_loop fuel remain b.
Proof.
  induction fuel as [|f IH]; intros remain k b He Hsz Hr; [lia|].
  cbn [Nat.add discard_loop].
  set (b0 := if (length (buf b) =? 0)%nat then fill b else b).
  set (sk := Nat.min (length (buf b0)) remain).
  destruct (remain - sk =? 0)%nat eqn:E; [reflexivity|].
  cbn [berr]. destruct (berr b0) eqn:E0; [reflexivity|].
  apply Nat.eqb_neq in E.
  assert (Hb0 : bsize b0 = bsize b /\ (0 < length (buf b0))%nat).
  { subst b0 sk. destruct (length (buf b) =? 0)%nat eqn:E1.
    - apply Nat.eqb_eq in E1.
      destruct (fill_spec b ltac:(lia)) as (Hmv & [[Hb Hl] | (Hb & _)]).
      + split; [apply Hmv | lia].
      + congruence.
    - apply Nat.eqb_neq in E1. split; [reflexivity | lia]. }
  apply IH; cbn [berr bsize]; [reflexivity | lia | lia].
Qed.

Lemma Discard_spec (n : Z) (b b1 : bufReader) (e : option error) :
  buf_ok b -> 0 < n ->
  Discard n b = (b1, e) ->
  buf_ok b1 /\
  ((n <= Z.of_nat (length (rest b)) /\ moved (Z.to_nat n) b b1 /\ e = None) \/
   (Z.of_nat (length (rest b)) < n /\ moved (length (rest b)) b b1 /\
    e = Some EOF)).
Proof.
  intros [He Hsz] Hn H. unfold Discard in H.
  replace (n <? 0) with false in H by (symmetry; apply Z.ltb_ge; lia).
  replace (n =? 0) with false in H by (symmetry; apply Z.eqb_neq; lia).
  destruct (discard_loop_spec (Z.to_nat n) (Z.to_nat n) b b1 e)
    as (Hb1 & Hres); [exact He | lia | lia | exact H |].
  assert (Hs1 : bsize b1 = bsize b)
    by (destruct Hres as [(_ & Hm & _) | (_ & Hm & _)]; apply Hm).
  split; [split; [exact Hb1 | lia]|].
  destruct Hres as [(Hle & Hm & ->) | (Hlt & Hm & ->)];
    [left | right]; repeat split; try apply Hm; lia.
Qed.

Lemma bufio_Read_spec (m : nat) (b b1 : bufReader) (bs : list byte)
      (e : option error) :
  buf_ok b -> (0 < m)%nat ->
  bufio_Read m b = (b1, (bs, e)) ->
  buf_ok b1 /\ moved (length bs) b b1 /\
  bs = firstn (length bs) (rest b) /\ (length bs <= m)%nat /\
  ((bs <> [] /\ e = None) \/ (bs = [] /\ e = Some EOF /\ rest b = [])).
Proof.
  intros [He Hsz] Hm H. unfold bufio_Read in H.
  replace (m =? 0)%nat with false in H by (symmetry; apply Nat.eqb_neq; lia).
  destruct (buf b) as [|x xs] eqn:Eb.
  - rewrite He in H.
    assert (Hrest : rest b = srest (rd b)) by (unfold rest; now rewrite Eb).
    destruct (bsize b <=? m)%nat eqn:Ed.
    + destruct (src_Read m (rd b)) as [s' bs'] eqn:Er.
      destruct (src_Read_spec _ _ _ _ Er) as (Hsp & Hd & _ & _ & Hl & Hne).
      injection H as <- <- <-.
      split; [split; [reflexivity | exact Hsz]|].
      split; [|split; [|split; [exact Hl|]]].
      * unfold moved, rest; cbn [rd buf bsize app]. rewrite Eb. cbn [app].
        repeat split; [exact Hd|].
        rewrite <- Hsp. rewrite skipn_app, skipn_all, Nat.sub_diag.
        reflexivity.
      * rewrite Hrest, <- Hsp. rewrite firstn_app_le, firstn_all by lia.
        reflexivity.
      * destruct bs' as [|y ys]; [right | left; split; [discriminate|reflexivity]].
        repeat split. rewrite Hrest.
        destruct (srest (rd b)) eqn:Es; [reflexivity|].
        exfalso. apply Hne; [lia | discriminate | reflexivity].
    + destruct (src_Read (bsize b) (rd b)) as [s' bs'] eqn:Er.
      destruct (src_Read_spec _ _ _ _ Er) as (Hsp & Hd & _ & _ & Hl & Hne).
      destruct bs' as [|y ys].
      * injection H as <- <- <-.
        split; [split; [reflexivity | exact Hsz]|].
        cbn in Hsp.
        split; [|split; [reflexivity|split; [cbn; lia|]]].
        -- unfold moved, rest; cbn [rd buf bsize app length skipn].
           rewrite Eb. repeat split; [exact Hd | now rewrite Hsp].
        -- right. repeat split. rewrite Hrest.
           destruct (srest (rd b)) eqn:Es; [reflexivity|].
           exfalso. apply Hne; [lia | discriminate | reflexivity].
      * injection H as <- <- <-.
        split; [split; [reflexivity | exact Hsz]|].
        set (l := y :: ys) in *.
        assert (Hfl : (length (firstn m l) <= length l)%nat)
          by (rewrite length_firstn; lia).
        split; [|split; [|split; [rewrite length_firstn; lia|]]].
        -- unfold moved, rest; cbn [rd buf bsize]. rewrite Eb. cbn [app].
           repeat split; [exact Hd|]. rewrite <- Hsp.
           rewrite skipn_app_le by exact Hfl. f_equal.
           rewrite length_firstn.
           destruct (Nat.le_gt_cases m (length l)).
           ++ now rewrite Nat.min_l by lia.
           ++ rewrite Nat.min_r by lia. now rewrite !skipn_all2 by lia.
        -- rewrite Hrest, <- Hsp. rewrite firstn_app_le by exact Hfl.
           symmetry. apply firstn_length_firstn.
        -- left. split; [|reflexivity]. subst l.
           destruct m; [lia | discriminate].
  - injection H as <- <- <-.
    set (l := x :: xs) in *.
    assert (Hfl : (length (firstn m l) <= length l)%nat)
      by (rewrite length_firstn; lia).
    split; [split; [exact He | exact Hsz]|].
    split; [|split; [|split; [rewrite length_firstn; lia|]]].
    + unfold moved, rest; cbn [rd buf bsize]. rewrite Eb.
      repeat split. rewrite skipn_app_le by exact Hfl. f_equal.
      rewrite length_firstn.
      destruct (Nat.le_gt_cases m (length l)).
      * now rewrite Nat.min_l by lia.
      * rewrite Nat.min_r by lia. now rewrite !skipn_all2 by lia.
    + unfold rest. rewrite Eb. rewrite firstn_app_le by exact Hfl.
      symmetry. apply firstn_length_firstn.
    + left. split; [|reflexivity]. subst l. destruct m; [lia | discriminate].
Qed.

(** ** fileReader *)

Lemma validate_noop (r : fileReader) :
  lN r <= 0 -> validate r = (r, None).
Proof.
  intros H. unfold validate.
  replace (lN r <=? 0) with true by (symmetry; apply Z.leb_le; lia).
  reflexivity.
Qed.

Lemma validate_discard (r : fileReader) :
  0 < lN r -> (lN r <= Buffered (fb r) \/ fs r = None) ->
  validate r = (let (b1, e) := Discard (lN r) (fb r) in (mkFile b1 (fs r) 0, e)).
Proof.
  intros H Hc. unfold validate.
  replace (lN r <=? 0) with false by (symmetry; apply Z.leb_gt; lia).
  destruct Hc as [Hc | Hc].
  - replace (Buffered (fb r) <? lN r) with false
      by (symmetry; apply Z.ltb_ge; lia).
    reflexivity.
  - rewrite Hc. destruct (Buffered (fb r) <? lN r); reflexivity.
Qed.

Lemma validate_seek (r : fileReader) (sk : Seeker) :
  0 < lN r -> Buffered (fb r) < lN r -> fs r = Some sk ->
  validate r =
  (let (s', e) := src_Seek sk (lN r - Buffered (fb r)) (rd (fb r)) in
   (mkFile (mkBuf s' [] (bsize (fb r)) None) (fs r) 0, e)).
Proof.
  intros H Hb Hs. unfold validate.
  replace (lN r <=? 0) with false by (symmetry; apply Z.leb_gt; lia).
  replace (Buffered (fb r) <? lN r) with true
    by (symmetry; apply Z.ltb_lt; lia).
  rewrite Hs. reflexivity.
Qed.

(** After a seek of the source by [n - buffered] bytes and a reset of the
    buffer, [n] bytes of the logical input are gone. *)
Lemma seek_moved (b : bufReader) (n : Z) :
  Buffered b < n ->
  exists s', src_Seek file_seek (n - Buffered b) (rd b) = (s', None) /\
             upos s' = (upos (rd b) + (Z.to_nat n - length (buf b)))%nat /\
             moved (Z.to_nat n) b (mkBuf s' [] (bsize b) None).
Proof.
  intros H. unfold Buffered in *. unfold src_Seek, file_seek.
  replace (Z.of_nat (upos (rd b)) + (n - Z.of_nat (length (buf b))) <? 0)
    with false by (symmetry; apply Z.ltb_ge; lia).
  eexists. split; [reflexivity|]. cbn [upos].
  split; [lia|].
  unfold moved, rest, srest; cbn [rd buf bsize data upos app].
  repeat split.
  rewrite skipn_app. rewrite (skipn_all2 (buf b)) by lia. cbn [app].
  rewrite skipn_skipn. f_equal. lia.
Qed.

Lemma moved_past_end (j : nat) (b b' : bufReader) :
  moved j b b' -> (length (rest b) <= j)%nat ->
  moved (length (rest b)) b b' /\ rest b' = [].
Proof.
  intros (Hd & Hs & Hr) Hl.
  assert (E : rest b' = []) by (rewrite Hr; apply skipn_all2; exact Hl).
  split; [|exact E]. repeat split; try assumption.
  rewrite E. symmetry. apply skipn_all.
Qed.

Lemma validate_spec (r r1 : fileReader) (e : option error) :
  file_ok r -> std_seek r -> 0 < lN r ->
  validate r = (r1, e) ->
  file_ok r1 /\ fs r1 = fs r /\ lN r1 = 0 /\
  ((lN r <= Z.of_nat (length (rest (fb r))) /\
    moved (Z.to_nat (lN r)) (fb r) (fb r1) /\ e = None) \/
   (Z.of_nat (length (rest (fb r))) < lN r /\
    moved (length (rest (fb r))) (fb r) (fb r1) /\
    e = match fs r with None => Some EOF | Some _ => None end)).
Proof.
  intros Hok Hstd Hn H.
  assert (Hbl : Buffered (fb r) <= Z.of_nat (length (rest (fb r)))).
  { unfold Buffered, rest. rewrite length_app. lia. }
  destruct (Z.lt_ge_cases (Buffered (fb r)) (lN r)) as [Hlt | Hge];
    [destruct Hstd as [Hs | Hs]|].
  - (* not seekable: read and discard *)
    rewrite validate_discard in H by (try lia; now right).
    destruct (Discard (lN r) (fb r)) as [b1 e1] eqn:Ed.
    injection H as <- <-. cbn [fb fs lN].
    destruct (Discard_spec _ _ _ _ Hok Hn Ed) as (Hok1 & Hres).
    repeat split; [apply Hok1 | apply Hok1 |].
    rewrite Hs. exact Hres.
  - (* seekable and more pending than buffered: seek *)
    rewrite (validate_seek r file_seek) in H by assumption.
    destruct (seek_moved (fb r) (lN r) Hlt) as (s' & Hsk & _ & Hmv).
    rewrite Hsk in H. injection H as <- <-. cbn [fb fs lN].
    destruct Hok as [_ Hsz].
    repeat split; [exact Hsz|].
    destruct (Z.le_gt_cases (lN r) (Z.of_nat (length (rest (fb r))))).
    + left. repeat split; [assumption | apply Hmv ..].
    + right. rewrite Hs. split; [lia|]. split; [|reflexivity].
      apply (moved_past_end _ _ _ Hmv). lia.
  - (* enough is buffered: discard from the buffer *)
    rewrite validate_discard in H by (try lia; now left).
    destruct (Discard (lN r) (fb r)) as [b1 e1] eqn:Ed.
    injection H as <- <-. cbn [fb fs lN].
    destruct (Discard_spec _ _ _ _ Hok Hn Ed) as (Hok1 & Hres).
    repeat split; [apply Hok1 | apply Hok1 |].
    destruct Hres as [Hres | (Hlt & _)]; [left; exact Hres | lia].
Qed.

Lemma moved_beyond (j : nat) (b b' : bufReader) :
  moved (length (rest b)) b b' -> (length (rest b) <= j)%nat -> moved j b b'.
Proof.
  intros (Hd & Hs & Hr) Hl. repeat split; try assumption.
  rewrite Hr, skipn_all. symmetry. apply skipn_all2. exact Hl.
Qed.

(** Resolution in terms of the logical input, for every value of the
    counter. *)
Lemma validate_moved (r r1 : fileReader) (e : option error) :
  file_ok r -> (0 < lN r -> std_seek r) ->
  validate r = (r1, e) ->
  file_ok r1 /\ fs r1 = fs r /\ lN r1 = Z.min (lN r) 0 /\
  moved (Z.to_nat (lN r)) (fb r) (fb r1) /\
  (lN r <= Z.of_nat (length (rest (fb r))) -> e = None) /\
  (Z.of_nat (length (rest (fb r))) < lN r ->
   e = match fs r with None => Some EOF | Some _ => None end).
Proof.
  intros Hok Hstd H.
  destruct (Z.le_gt_cases (lN r) 0) as [Hle | Hgt].
  - rewrite validate_noop in H by exact Hle. injection H as <- <-.
    replace (Z.to_nat (lN r)) with 0%nat by lia.
    repeat split; try apply Hok; try apply moved_refl; lia.
  - destruct (validate_spec _ _ _ Hok (Hstd Hgt) Hgt H)
      as (Hok1 & Hfs & HN & [(Hle & Hmv & ->) | (Hlt & Hmv & ->)]).
    + repeat split; try apply Hok1; try apply Hmv; try assumption; lia.
    + pose proof (moved_beyond (Z.to_nat (lN r)) _ _ Hmv ltac:(lia)) as Hmv'.
      repeat split; try apply Hok1; try apply Hmv'; try assumption; lia.
Qed.

Lemma next_spec (n : Z) (r r1 : fileReader) (res : result (list byte)) :
  file_ok r -> (0 < lN r -> std_seek r) -> 0 < n -> n <= 16 ->
  next n r = (r1, res) ->
  file_ok r1 /\ fs r1 = fs r /\
  moved (Z.to_nat (lN r)) (fb r) (fb r1) /\
  ((Z.max (lN r) 0 + n <= Z.of_nat (length (rest (fb r))) /\
    res = Ok (firstn (Z.to_nat n) (skipn (Z.to_nat (lN r)) (rest (fb r)))) /\
    lN r1 = n /\ n <= Buffered (fb r1)) \/
   (Z.of_nat (length (rest (fb r))) < Z.max (lN r) 0 + n /\
    res = Err EOF /\ lN r1 = Z.min (lN r) 0)).
Proof.
  intros Hok Hstd Hn Hn16 H. unfold next in H.
  destruct (validate r) as [r0 e] eqn:Ev.
  destruct (validate_moved _ _ _ Hok Hstd Ev)
    as (Hok0 & Hfs0 & HN0 & Hmv0 & He1 & He2).
  assert (Hlen0 : length (rest (fb r0))
                  = (length (rest (fb r)) - Z.to_nat (lN r))%nat).
  { destruct Hmv0 as (_ & _ & ->). apply length_skipn. }
  destruct e as [err|].
  - injection H as <- <-.
    destruct (Z.le_gt_cases (lN r) (Z.of_nat (length (rest (fb r)))))
      as [Hle | Hgt]; [specialize (He1 Hle); discriminate|].
    specialize (He2 Hgt). destruct (fs r); [discriminate|].
    injection He2 as ->.
    repeat split; try apply Hok0; try apply Hmv0; try assumption.
    right. repeat split; lia.
  - destruct (Peek n (fb r0)) as [b1 [bs e1]] eqn:Ep.
    assert (Hsz0 : (Z.to_nat n <= bsize (fb r0))%nat)
      by (destruct Hok0; lia).
    destruct (Peek_spec _ _ _ _ _ Hok0 (Z.lt_le_incl _ _ Hn) Hsz0 Ep)
      as (Hmv1 & Hok1 & Hres).
    assert (Hmv : moved (Z.to_nat (lN r)) (fb r) b1).
    { replace (Z.to_nat (lN r)) with (Z.to_nat (lN r) + 0)%nat by lia.
      eapply moved_trans; eassumption. }
    destruct Hres as [(Hle & -> & -> & Hb) | (Hlt & ->)].
    + injection H as <- <-. cbn [fb fs lN].
      repeat split; try apply Hok1; try apply Hmv; try assumption.
      left. repeat split.
      * lia.
      * destruct Hmv0 as (_ & _ & ->). reflexivity.
      * exact Hb.
    + injection H as <- <-. cbn [fb fs lN].
      repeat split; try apply Hok1; try apply Hmv; try assumption.
      right. repeat split; lia.
Qed.

Lemma reader_spec (n : Z) (r r1 : fileReader) (res : result unit) :
  file_ok r -> (0 < lN r -> std_seek r) ->
  lN r <= Z.of_nat (length (rest (fb r))) ->
  reader n r = (r1, res) ->
  file_ok r1 /\ fs r1 = fs r /\
  moved (Z.to_nat (lN r)) (fb r) (fb r1) /\ res = Ok tt /\ lN r1 = n.
Proof.
  intros Hok Hstd Hle H. unfold reader in H.
  destruct (validate r) as [r0 e] eqn:Ev.
  destruct (validate_moved _ _ _ Hok Hstd Ev)
    as (Hok0 & Hfs0 & HN0 & Hmv0 & He1 & _).
  rewrite (He1 Hle) in H. injection H as <- <-. cbn [fb fs lN].
  repeat split; try apply Hok0; try apply Hmv0; assumption.
Qed.

Lemma limited_Read_spec (m : nat) (r r1 : fileReader) (bs : list byte)
      (e : option error) :
  file_ok r ->
  limited_Read m r = (r1, (bs, e)) ->
  file_ok r1 /\ fs r1 = fs r /\
  moved (length bs) (fb r) (fb r1) /\
  bs = firstn (length bs) (rest (fb r)) /\
  lN r1 = lN r - Z.of_nat (length bs) /\
  (length bs <= m)%nat /\ Z.of_nat (length bs) <= Z.max (lN r) 0 /\
  ((bs <> [] /\ e = None) \/
   (bs = [] /\ e = None /\ m = 0%nat /\ 0 < lN r) \/
   (bs = [] /\ e = Some EOF /\ (lN r <= 0 \/ rest (fb r) = []))).
Proof.
  intros Hok H. unfold limited_Read in H.
  destruct (lN r <=? 0) eqn:EN.
  - apply Z.leb_le in EN. injection H as <- <- <-.
    cbn [length firstn]. rewrite Z.sub_0_r.
    repeat split; try apply Hok; try lia.
    right; right. repeat split. now left.
  - apply Z.leb_gt in EN.
    set (m' := if lN r <? Z.of_nat m then Z.to_nat (lN r) else m) in *.
    assert (Hm' : (m' <= m)%nat /\ Z.of_nat m' <= lN r /\
                  (m' = 0%nat -> m = 0%nat)).
    { subst m'. destruct (lN r <? Z.of_nat m) eqn:E.
      - apply Z.ltb_lt in E. lia.
      - apply Z.ltb_ge in E. lia. }
    clearbody m'.
    destruct (bufio_Read m' (fb r)) as [b1 [bs1 e1]] eqn:Er.
    injection H as <- <- <-. cbn [fb fs lN].
    destruct (Nat.eq_dec m' 0) as [-> | Hnz].
    + unfold bufio_Read in Er. cbn [Nat.eqb] in Er.
      assert (Hb : berr (fb r) = None) by apply Hok.
      destruct (0 <? length (buf (fb r)))%nat.
      * injection Er as <- <- <-. cbn [length firstn]. rewrite Z.sub_0_r.
        repeat split; try apply Hok; try lia.
        right; left. repeat split; lia.
      * unfold readErr in Er. rewrite Hb in Er. injection Er as <- <- <-.
        cbn [length firstn]. rewrite Z.sub_0_r.
        destruct Hok as [_ Hsz].
        repeat split; try assumption; try lia.
        right; left. repeat split; lia.
    + assert (Hpos : (0 < m')%nat) by lia.
      destruct (bufio_Read_spec _ _ _ _ _ Hok Hpos Er)
        as (Hok1 & Hmv & Hbs & Hl & Hcase).
      repeat split; try apply Hok1; try apply Hmv; try assumption; try lia.
      destruct Hcase as [[Hne ->] | (-> & -> & Hr)].
      * left. split; [exact Hne | reflexivity].
      * right; right. repeat split. now right.
Qed.

(** ** Codec *)

Lemma getInt24_range (b : list byte) (z : Z) :
  getInt24 b = Some z -> 0 <= z <= 2 ^ 24 - 1.
Proof.
  destruct b as [|b0 [|b1 [|b2 tl]]]; try discriminate.
  rewrite getInt24_sum. intros [= <-].
  pose proof (byteZ_range b0). pose proof (byteZ_range b1).
  pose proof (byteZ_range b2). lia.
Qed.

Lemma getTime_range (b : list byte) (z : Z) :
  getTime b = Some z -> 0 <= z <= 2 ^ 32 - 1.
Proof.
  destruct b as [|b0 [|b1 [|b2 [|b3 tl]]]]; try discriminate.
  rewrite getTime_sum. intros [= <-].
  pose proof (byteZ_range b0). pose proof (byteZ_range b1).
  pose proof (byteZ_range b2). pose proof (byteZ_range b3). lia.
Qed.

Lemma getUint32_range (b : list byte) (z : Z) :
  getUint32 b = Some z -> 0 <= z <= 2 ^ 32 - 1.
Proof.
  destruct b as [|b0 [|b1 [|b2 [|b3 tl]]]]; try discriminate.
  rewrite getUint32_sum. intros [= <-].
  pose proof (byteZ_range b0). pose proof (byteZ_range b1).
  pose proof (byteZ_range b2). pose proof (byteZ_range b3). lia.
Qed.

(** C9. For every [int64] value [v] with [0 <= v <= 2^32 - 1], [putTime]
    into a four-byte buffer followed by [getTime] returns [v]. *)
Theorem putTime_getTime_roundtrip (b : list byte) (v : Z) :
  length b = 4%nat -> 0 <= v <= 2 ^ 32 - 1 ->
  exists b', putTime b v = Some b' /\ length b' = 4%nat /\
             getTime b' = Some v.
Proof.
  intros Hb Hv.
  destruct b as [|c0 [|c1 [|c2 [|c3 [|c4 tl]]]]]; try discriminate.
  eexists. split; [reflexivity|]. split; [reflexivity|].
  rewrite getTime_sum, !byteZ_uint8. f_equal.
  rewrite <- (time_bytes_recombine v) at 5 by lia. lia.
Qed.

Lemma putTime_getTime_roundtrip_witness :
  exists b', putTime [x00; x00; x00; x00] 305419896 = Some b' /\
             length b' = 4%nat /\ getTime b' = Some 305419896.
Proof.
  apply (putTime_getTime_roundtrip [x00; x00; x00; x00] 305419896);
    [reflexivity | lia].
Defined.

(** ** What a successful call returns, in any state *)

Lemma Peek_Ok_length (n : Z) (b b1 : bufReader) (bs : list byte) :
  Peek n b = (b1, (bs, None)) -> 0 <= n /\ length bs = Z.to_nat n.
Proof.
  unfold Peek. destruct (n <? 0) eqn:E; [discriminate|].
  apply Z.ltb_ge in E.
  destruct (bsize _ <? _)%nat; [discriminate|].
  destruct (length _ <? _)%nat eqn:El; [discriminate|].
  apply Nat.ltb_ge in El. intros [= <- <-]. split; [exact E|].
  rewrite length_firstn. lia.
Qed.

Lemma next_Ok (n : Z) (r r1 : fileReader) (bs : list byte) :
  next n r = (r1, Ok bs) ->
  0 <= n /\ length bs = Z.to_nat n /\ lN r1 = n /\
  exists r0, validate r = (r0, None) /\
             Peek n (fb r0) = (fb r1, (bs, None)) /\ fs r1 = fs r0.
Proof.
  unfold next. destruct (validate r) as [r0 [err|]]; [discriminate|].
  destruct (Peek n (fb r0)) as [b1 [bs' [err|]]] eqn:Ep; [discriminate|].
  intros [= <- <-]. cbn [fb fs lN].
  destruct (Peek_Ok_length _ _ _ _ Ep) as [H0 Hl].
  split; [exact H0|]. split; [exact Hl|]. split; [reflexivity|].
  exists r0. split; [reflexivity|]. split; [exact Ep | reflexivity].
Qed.

Lemma reader_Ok (n : Z) (r r1 : fileReader) (u : unit) :
  reader n r = (r1, Ok u) ->
  lN r1 = n /\
  exists r0, validate r = (r0, None) /\ r1 = mkFile (fb r0) (fs r0) n.
Proof.
  unfold reader. destruct (validate r) as [r0 [err|]]; [discriminate|].
  intros [= <-]. split; [reflexivity|]. exists r0. split; reflexivity.
Qed.

(** What [ReadTag] does, spelled out: the fifteen bytes it peeks, the tag
    it builds from them and the payload reader it asks for. *)
Lemma ReadTag_Ok (r r2 : fileReader) (t : Tag) :
  ReadTag r = (r2, Ok t) ->
  exists r1 b ty,
    next 15 r = (r1, Ok b) /\ reader (Size t) r1 = (r2, Ok tt) /\
    nth_error b 4 = Some ty /\ getInt24 (skipn 5 b) = Some (Size t) /\
    getTime (skipn 8 b) = Some (Time t) /\
    getUint24 (skipn 12 b) = Some (Stream t) /\ Type_ t = ty.
Proof.
  unfold ReadTag. destruct (next 15 r) as [r1 [b|err]] eqn:En; [|discriminate].
  destruct (nth_error b 4) as [ty|] eqn:E4; [|discriminate].
  destruct (getInt24 (skipn 5 b)) as [size|] eqn:E5; [|discriminate].
  destruct (getTime (skipn 8 b)) as [time|] eqn:E8; [|discriminate].
  destruct (getUint24 (skipn 12 b)) as [stream|] eqn:E12; [|discriminate].
  cbn [Size].
  destruct (reader size r1) as [r2' [[]|err]] eqn:Er; [|discriminate].
  intros [= <- <-]. exists r1, b, ty. cbn [Size Time Stream Type_].
  repeat split; first [assumption | reflexivity].
Qed.

(** C10. Every tag returned by a successful [ReadTag] has its [Size] in
    [0, 2^24 - 1] and its [Time] in [0, 2^32 - 1], whatever the input
    bytes; the payload reader was therefore asked for a length that is not
    negative: the counter [r.l.N] it leaves is that [Size]. *)
Theorem ReadTag_fields_in_range (r r2 : fileReader) (t : Tag) :
  ReadTag r = (r2, Ok t) ->
  0 <= Size t <= 2 ^ 24 - 1 /\ 0 <= Time t <= 2 ^ 32 - 1 /\
  lN r2 = Size t /\ 0 <= lN r2.
Proof.
  intros H.
  destruct (ReadTag_Ok _ _ _ H) as (r1 & b & ty & _ & Hr & _ & Hs & Ht & _).
  apply getInt24_range in Hs. apply getTime_range in Ht.
  apply reader_Ok in Hr as [HN _].
  repeat split; lia.
Qed.

Lemma ReadTag_fields_in_range_witness :
  let r := fst (ReadTag (fst (ReadHeader (sample_reader None)))) in
  let t := mkTag x08 2 33 0 in
  0 <= Size t <= 2 ^ 24 - 1 /\ 0 <= Time t <= 2 ^ 32 - 1 /\
  lN (fst (ReadTag r)) = Size t /\ 0 <= lN (fst (ReadTag r)).
Proof.
  intros r t.
  apply (ReadTag_fields_in_range r (fst (ReadTag r)) t).
  vm_compute. reflexivity.
Defined.

(** ** The bounded sub-reader and negative counts *)

Lemma validate_Some_resets (r r0 : fileReader) (e : error) :
  validate r = (r0, Some e) -> lN r0 = 0.
Proof.
  unfold validate. destruct (lN r <=? 0); [discriminate|].
  destruct (if Buffered (fb r) <? lN r then fs r else None) as [sk|].
  - destruct (src_Seek _ _ _). intros [= <- _]. reflexivity.
  - destruct (Discard _ _). intros [= <- _]. reflexivity.
Qed.

(** C5, as the code has it. [fileReader.reader] does not look at the sign
    of [n]: it fails exactly when the resolution of the pending count
    fails, and with that error; otherwise it hands out the limited reader
    with its counter set to [n], and for an [n] that is not positive that
    reader reports the end of its input at once, consuming nothing. *)
Theorem reader_no_sign_check (n : Z) (r : fileReader) :
  (forall e, snd (reader n r) = Err e <-> snd (validate r) = Some e) /\
  (snd (reader n r) = Ok tt <-> snd (validate r) = None) /\
  (snd (validate r) = None ->
   lN (fst (reader n r)) = n /\
   (n <= 0 -> forall m,
      limited_Read m (fst (reader n r)) = (fst (reader n r), ([], Some EOF)))).
Proof.
  unfold reader. destruct (validate r) as [r0 [err|]]; cbn [fst snd].
  - split; [|split].
    + intros e. split; intros [= ->]; reflexivity.
    + split; discriminate.
    + discriminate.
  - split; [|split].
    + intros e. split; discriminate.
    + split; reflexivity.
    + intros _. split; [reflexivity|]. intros Hn m.
      unfold limited_Read; cbn [lN].
      replace (n <=? 0) with true by (symmetry; apply Z.leb_le; exact Hn).
      reflexivity.
Qed.

(** C5 as stated fails: on a fresh reader a request for [-1] bytes is
    granted, and the counter of the limited reader becomes [-1]. *)
Lemma reader_accepts_negative_count :
  snd (reader (-1) (sample_reader None)) = Ok tt /\
  lN (fst (reader (-1) (sample_reader None))) = -1.
Proof. split; reflexivity. Qed.

(** ** End of input *)

Lemma at_pos_rest_length (p : nat) (b : bufReader) :
  at_pos p b -> length (rest b) = (length (data (rd b)) - p)%nat.
Proof. unfold at_pos. intros ->. apply length_skipn. Qed.

Lemma ReadTag_short_input (r : fileReader) :
  file_ok r -> std_seek r ->
  Z.of_nat (length (rest (fb r))) < Z.max (lN r) 0 + 15 ->
  snd (ReadTag r) = Err EOF.
Proof.
  intros Hok Hstd Hlt. unfold ReadTag.
  destruct (next 15 r) as [r1 res] eqn:En.
  destruct (next_spec 15 _ _ _ Hok (fun _ => Hstd) ltac:(lia) ltac:(lia) En)
    as (_ & _ & _ & [(Hle & _) | (_ & -> & _)]); [lia | reflexivity].
Qed.

(** C8. When the reader stands exactly at the end of its input (every
    byte not yet delivered is one already handed out and pending to be
    skipped), [ReadTag] returns [io.EOF], not a format error and not
    another I/O error. *)
Theorem ReadTag_at_end_of_input (r : fileReader) :
  file_ok r -> std_seek r ->
  cursor_at (length (data (rd (fb r)))) r ->
  snd (ReadTag r) = Err EOF.
Proof.
  intros Hok Hstd (p & Hp & HN & Hq).
  apply ReadTag_short_input; try assumption.
  rewrite (at_pos_rest_length _ _ Hp). lia.
Qed.

Lemma ReadTag_at_end_of_input_witness :
  snd (ReadTag (fst (ReadHeader
         (newFileReader
            (FromSource (sample_source sample_header (Some file_seek)))))))
  = Err EOF.
Proof.
  apply ReadTag_at_end_of_input.
  - split; [reflexivity | vm_compute; lia].
  - right. reflexivity.
  - exists 0%nat. split; [reflexivity|]. split; vm_compute; congruence.
Defined.

(** ** Error messages *)



(** ** Peeking at the cursor *)

Lemma wrap64_small (z : Z) : - 2 ^ 63 <= z < 2 ^ 63 -> wrap64 z = z.
Proof. intros H. unfold wrap64. rewrite Z.mod_small by lia. lia. Qed.

Lemma next_cursor (n : Z) (q : nat) (r : fileReader) :
  file_ok r -> (0 < lN r -> std_seek r) -> cursor_at q r -> 0 < n <= 16 ->
  Z.of_nat q + n <= Z.of_nat (length (data (rd (fb r)))) ->
  exists r1,
    next n r = (r1, Ok (firstn (Z.to_nat n) (skipn q (data (rd (fb r)))))) /\
    file_ok r1 /\ fs r1 = fs r /\ data (rd (fb r1)) = data (rd (fb r)) /\
    at_pos q (fb r1) /\ lN r1 = n /\ n <= Buffered (fb r1).
Proof.
  intros Hok Hstd (p & Hp & HN & Hq) Hn Hlen.
  destruct (next n r) as [r1 res] eqn:En. exists r1.
  destruct (next_spec n _ _ _ Hok Hstd ltac:(lia) ltac:(lia) En)
    as (Hok1 & Hfs & Hmv & Hres).
  pose proof (at_pos_rest_length _ _ Hp) as Hl.
  pose proof (moved_at_pos _ _ _ _ Hmv Hp) as Hp1.
  replace (p + Z.to_nat (lN r))%nat with q in Hp1 by lia.
  destruct Hres as [(_ & -> & HN1 & Hb) | (Hlt & _)]; [|lia].
  split; [|repeat split; try apply Hok1; try apply Hmv; assumption].
  do 3 f_equal. rewrite Hp, skipn_skipn. f_equal. lia.
Qed.

Lemma fresh_reader (s : Source) :
  upos s = 0%nat ->
  let r := newFileReader (FromSource s) in
  file_ok r /\ cursor_at 0 r /\ lN r = 0 /\ fs r = seek s /\
  data (rd (fb r)) = data s.
Proof.
  intros Hp r. subst r.
  unfold file_ok, buf_ok, cursor_at, at_pos, rest, srest.
  cbn [newFileReader bufio_NewReader fb fs lN rd buf bsize berr app].
  split; [split; [reflexivity | apply Nat.leb_le; reflexivity]|].
  split; [|repeat split].
  exists 0%nat. rewrite Hp. split; [reflexivity | split; lia].
Qed.

(** ** ReadHeader *)

Lemma signature_bytes (b0 b1 b2 : byte) :
  be24 b0 b1 b2 = signature <-> [b0; b1; b2] = [x46; x4c; x56].
Proof.
  unfold be24, signature. split.
  - intros H.
    pose proof (byteZ_range b0). pose proof (byteZ_range b1).
    pose proof (byteZ_range b2).
    assert (E0 : byteZ b0 = byteZ x46) by (change (byteZ x46) with 70; lia).
    assert (E1 : byteZ b1 = byteZ x4c) by (change (byteZ x4c) with 76; lia).
    assert (E2 : byteZ b2 = byteZ x56) by (change (byteZ x56) with 86; lia).
    apply byteZ_inj in E0, E1, E2. congruence.
  - intros [= -> -> ->]. reflexivity.
Qed.

(** [ReadHeader] once its nine bytes are there. *)
Lemma ReadHeader_after_peek (r r1 : fileReader) (b0 b1 b2 b3 b4 b5 b6 b7 b8 : byte) :
  next 9 r = (r1, Ok [b0; b1; b2; b3; b4; b5; b6; b7; b8]) ->
  ReadHeader r =
  if negb (be24 b0 b1 b2 =? signature)
  then (r1, Err (errSignature [b0; b1; b2; b3; b4; b5; b6; b7; b8]))
  else if negb (byteZ b3 =? 1) then (r1, Err (errVersion b3))
  else (skip (be32 b5 b6 b7 b8 - 9) r1, Ok (mkHeader b4)).
Proof.
  intros H. unfold ReadHeader. rewrite H.
  rewrite getUint24_sum. cbn [skipn nth_error]. rewrite getUint32_sum.
  reflexivity.
Qed.

Lemma nine_bytes (l : list byte) :
  (9 <= length l)%nat ->
  exists b0 b1 b2 b3 b4 b5 b6 b7 b8 tl,
    l = b0 :: b1 :: b2 :: b3 :: b4 :: b5 :: b6 :: b7 :: b8 :: tl.
Proof.
  intros H.
  do 9 (destruct l as [|? l]; [cbn in H; lia|]).
  repeat eexists.
Qed.

Lemma fresh_peek_header (s : Source) (b0 b1 b2 b3 b4 b5 b6 b7 b8 : byte)
      (tl : list byte) :
  upos s = 0%nat ->
  data s = b0 :: b1 :: b2 :: b3 :: b4 :: b5 :: b6 :: b7 :: b8 :: tl ->
  exists r1,
    next 9 (newFileReader (FromSource s))
    = (r1, Ok [b0; b1; b2; b3; b4; b5; b6; b7; b8]) /\
    file_ok r1 /\ fs r1 = seek s /\ data (rd (fb r1)) = data s /\
    at_pos 0 (fb r1) /\ lN r1 = 9.
Proof.
  intros Hp Hd.
  destruct (fresh_reader s Hp) as (Hok & Hc & HN & Hfs & Hdata).
  destruct (next_cursor 9 0 (newFileReader (FromSource s)) Hok)
    as (r1 & En & Hok1 & Hfs1 & Hd1 & Hp1 & HN1 & _);
    [rewrite HN; lia | exact Hc | lia | rewrite Hdata, Hd; cbn; lia |].
  exists r1. rewrite Hdata, Hd in En. cbn [Z.to_nat Pos.to_nat] in En.
  split; [exact En|]. repeat split; try apply Hok1; congruence.
Qed.







(** ** ReadTag at the cursor *)

Lemma tag_of_region_total (b : list byte) :
  length b = 15%nat -> exists t, tag_of_region b = Some t.
Proof.
  intros H.
  do 15 (destruct b as [|? b]; [discriminate H|]).
  unfold tag_of_region. cbn [nth_error skipn].
  rewrite getInt24_sum, getTime_sum, getUint24_sum. eexists. reflexivity.
Qed.

Lemma tag_of_region_size (b : list byte) (t : Tag) :
  tag_of_region b = Some t ->
  getInt24 (skipn 5 b) = Some (Size t) /\ 0 <= Size t <= 2 ^ 24 - 1.
Proof.
  unfold tag_of_region.
  destruct (nth_error b 4); [|discriminate].
  destruct (getInt24 (skipn 5 b)) as [sz|] eqn:E; [|discriminate].
  destruct (getTime (skipn 8 b)); [|discriminate].
  destruct (getUint24 (skipn 12 b)); [|discriminate].
  intros [= <-]. cbn [Size]. split; [reflexivity|].
  apply (getInt24_range _ _ E).
Qed.

Lemma ReadTag_cursor (q : nat) (r : fileReader) :
  file_ok r -> std_seek r -> cursor_at q r ->
  (q + 15 <= length (data (rd (fb r))))%nat ->
  exists r2 t,
    ReadTag r = (r2, Ok t) /\
    tag_of_region (firstn 15 (skipn q (data (rd (fb r))))) = Some t /\
    file_ok r2 /\ fs r2 = fs r /\ data (rd (fb r2)) = data (rd (fb r)) /\
    at_pos (q + 15) (fb r2) /\ lN r2 = Size t /\
    cursor_at (q + 15 + Z.to_nat (Size t)) r2.
Proof.
  intros Hok Hstd Hc Hlen.
  destruct (next_cursor 15 q r Hok (fun _ => Hstd) Hc)
    as (r1 & En & Hok1 & Hfs1 & Hd1 & Hp1 & HN1 & Hb1); [lia | lia |].
  set (b := firstn (Z.to_nat 15) (skipn q (data (rd (fb r))))) in *.
  assert (Hbl : length b = 15%nat).
  { subst b. rewrite length_firstn, length_skipn. lia. }
  destruct (tag_of_region_total b Hbl) as [t Ht].
  destruct (tag_of_region_size _ _ Ht) as [Hsz Hrange].
  assert (Hstd1 : std_seek r1) by (unfold std_seek in *; congruence).
  assert (Hrl : lN r1 <= Z.of_nat (length (rest (fb r1)))).
  { unfold Buffered, rest in *. rewrite length_app. lia. }
  destruct (reader (Size t) r1) as [r2 res2] eqn:Er.
  destruct (reader_spec _ _ _ _ Hok1 (fun _ => Hstd1) Hrl Er)
    as (Hok2 & Hfs2 & Hmv2 & -> & HN2).
  pose proof (moved_at_pos _ _ _ _ Hmv2 Hp1) as Hp2.
  rewrite HN1 in Hp2. change (Z.to_nat 15) with 15%nat in Hp2.
  exists r2, t.
  split.
  - unfold ReadTag. rewrite En. unfold tag_of_region in Ht.
    destruct (nth_error b 4); [|discriminate].
    destruct (getInt24 (skipn 5 b)); [|discriminate].
    destruct (getTime (skipn 8 b)); [|discriminate].
    destruct (getUint24 (skipn 12 b)); [|discriminate].
    injection Ht as Ht. rewrite Ht, Er. reflexivity.
  - split; [exact Ht|]. split; [exact Hok2|].
    split; [congruence|]. split; [destruct Hmv2 as (-> & _); exact Hd1|].
    split; [exact Hp2|]. split; [exact HN2|].
    exists (q + 15)%nat. split; [exact Hp2|]. lia.
Qed.

(** ** A valid header *)

Lemma ReadHeader_valid (s : Source) (L : Z) :
  upos s = 0%nat -> (9 <= length (data s))%nat ->
  firstn 3 (data s) = [x46; x4c; x56] -> nth 3 (data s) x00 = x01 ->
  getUint32 (skipn 5 (data s)) = Some L ->
  exists r1,
    ReadHeader (newFileReader (FromSource s))
    = (r1, Ok (mkHeader (nth 4 (data s) x00))) /\
    file_ok r1 /\ fs r1 = seek s /\ data (rd (fb r1)) = data s /\
    at_pos 0 (fb r1) /\ lN r1 = Z.max L 9 /\
    cursor_at (Z.to_nat (Z.max L 9)) r1.
Proof.
  intros Hp Hlen Hsig Hver HL.
  destruct (nine_bytes _ Hlen)
    as (b0 & b1 & b2 & b3 & b4 & b5 & b6 & b7 & b8 & tl & Hd).
  destruct (fresh_peek_header s _ _ _ _ _ _ _ _ _ _ Hp Hd)
    as (r1 & En & Hok1 & Hfs1 & Hd1 & Hp1 & HN1).
  rewrite (ReadHeader_after_peek _ _ _ _ _ _ _ _ _ _ _ En).
  rewrite Hd in Hsig, Hver, HL |- *. cbn [firstn nth skipn] in Hsig, Hver, HL |- *.
  apply signature_bytes in Hsig. subst b3. rewrite Hsig, Z.eqb_refl.
  cbn [negb byteZ Byte.to_N Z.of_N Z.eqb Pos.eqb].
  assert (HL' : be32 b5 b6 b7 b8 = L)
    by (rewrite getUint32_sum in HL; unfold be32; congruence).
  clear HL. rename HL' into HL. rewrite HL.
  assert (HLr : 0 <= L <= 2 ^ 32 - 1).
  { subst L. unfold be32.
    pose proof (byteZ_range b5). pose proof (byteZ_range b6).
    pose proof (byteZ_range b7). pose proof (byteZ_range b8). lia. }
  assert (HN : lN (skip (L - 9) r1) = Z.max L 9).
  { unfold skip. destruct (0 <? L - 9) eqn:E.
    - apply Z.ltb_lt in E. cbn [lN]. rewrite HN1, wrap64_small; lia.
    - apply Z.ltb_ge in E. lia. }
  assert (Hsame : fb (skip (L - 9) r1) = fb r1 /\ fs (skip (L - 9) r1) = fs r1)
    by (unfold skip; destruct (0 <? L - 9); split; reflexivity).
  destruct Hsame as [Hfb Hfs].
  exists (skip (L - 9) r1). split; [reflexivity|].
  unfold file_ok, cursor_at. rewrite Hfb, Hfs, HN, <- Hd.
  split; [exact Hok1|]. split; [exact Hfs1|]. split; [exact Hd1|].
  split; [exact Hp1|]. split; [reflexivity|].
  exists 0%nat. split; [exact Hp1 | lia].
Qed.

(** C6. For a valid header that declares the length [L], [ReadHeader]
    returns the header whose flags are input byte 4 and leaves the cursor
    at offset [L] when [L > 9] and at offset 9 otherwise; the next
    operation sees the input from that offset on, once: what the next peek
    returns are the bytes at that offset, the cursor is then past them,
    and the next [ReadTag] returns the tag that the fifteen bytes at that
    offset denote. *)
Theorem ReadHeader_skips_declared_length (s : Source) (L : Z) :
  upos s = 0%nat -> (seek s = None \/ seek s = Some file_seek) ->
  (9 <= length (data s))%nat ->
  firstn 3 (data s) = [x46; x4c; x56] -> nth 3 (data s) x00 = x01 ->
  getUint32 (skipn 5 (data s)) = Some L ->
  let r1 := fst (ReadHeader (newFileReader (FromSource s))) in
  let q := Z.to_nat (if 9 <? L then L else 9) in
  snd (ReadHeader (newFileReader (FromSource s)))
  = Ok (mkHeader (nth 4 (data s) x00)) /\
  cursor_at q r1 /\
  (forall n, 0 < n <= 16 ->
     Z.of_nat q + n <= Z.of_nat (length (data s)) ->
     snd (next n r1) = Ok (firstn (Z.to_nat n) (skipn q (data s))) /\
     cursor_at (q + Z.to_nat n) (fst (next n r1))) /\
  ((q + 15 <= length (data s))%nat ->
   exists t, snd (ReadTag r1) = Ok t /\
             tag_of_region (firstn 15 (skipn q (data s))) = Some t).
Proof.
  intros Hp Hseek Hlen Hsig Hver HL r1 q. subst r1 q.
  destruct (ReadHeader_valid s L Hp Hlen Hsig Hver HL)
    as (r1 & -> & Hok1 & Hfs1 & Hd1 & Hp1 & HN1 & Hc1).
  cbn [fst snd].
  replace (if 9 <? L then L else 9) with (Z.max L 9)
    by (destruct (Z.ltb_spec 9 L); lia).
  assert (Hstd1 : std_seek r1) by (unfold std_seek; rewrite Hfs1; exact Hseek).
  split; [reflexivity|]. split; [exact Hc1|]. split.
  - intros n Hn Hq.
    destruct (next_cursor n _ r1 Hok1 (fun _ => Hstd1) Hc1 Hn)
      as (r2 & En & Hok2 & Hfs2 & Hd2 & Hp2 & HN2 & _);
      [rewrite Hd1; exact Hq|].
    rewrite En, Hd1. cbn [fst snd]. split; [reflexivity|].
    eexists. split; [exact Hp2|]. lia.
  - intros Hq.
    destruct (ReadTag_cursor _ r1 Hok1 Hstd1 Hc1)
      as (r2 & t & Et & Ht & _); [rewrite Hd1; exact Hq|].
    exists t. rewrite Et, <- Hd1. split; [reflexivity | exact Ht].
Qed.

Lemma ReadHeader_skips_declared_length_witness :
  let s := sample_source sample_long_file (Some file_seek) in
  let r1 := fst (ReadHeader (newFileReader (FromSource s))) in
  let q := Z.to_nat (if 9 <? 11 then 11 else 9) in
  snd (ReadHeader (newFileReader (FromSource s)))
  = Ok (mkHeader (nth 4 (data s) x00)) /\
  cursor_at q r1 /\
  (forall n, 0 < n <= 16 ->
     Z.of_nat q + n <= Z.of_nat (length (data s)) ->
     snd (next n r1) = Ok (firstn (Z.to_nat n) (skipn q (data s))) /\
     cursor_at (q + Z.to_nat n) (fst (next n r1))) /\
  ((q + 15 <= length (data s))%nat ->
   exists t, snd (ReadTag r1) = Ok t /\
             tag_of_region (firstn 15 (skipn q (data s))) = Some t).
Proof.
  intros s.
  apply (ReadHeader_skips_declared_length s 11);
    [reflexivity | right; reflexivity | cbn; lia | reflexivity
    | reflexivity | reflexivity].
Defined.

(** ** Resolution of the pending count *)

Lemma Discard_buffered (n : Z) (b : bufReader) :
  0 < n <= Buffered b ->
  Discard n b
  = (mkBuf (rd b) (skipn (Z.to_nat n) (buf b)) (bsize b) (berr b), None).
Proof.
  unfold Buffered. intros H. unfold Discard.
  replace (n <? 0) with false by (symmetry; apply Z.ltb_ge; lia).
  replace (n =? 0) with false by (symmetry; apply Z.eqb_neq; lia).
  destruct (Z.to_nat n) as [|k] eqn:E; [lia|]. cbn [discard_loop].
  replace (length (buf b) =? 0)%nat with false
    by (symmetry; apply Nat.eqb_neq; lia).
  replace (Nat.min (length (buf b)) (S k)) with (S k) by lia.
  rewrite Nat.sub_diag. reflexivity.
Qed.

(** C2. With a positive pending count [n] and [b] bytes buffered,
    [validate] resets the count to zero and
    - when [b < n] and the source can seek: drops the whole buffer and
      seeks the source by [n - b] from its current offset, without
      reading it; the error of the seek, if any, is the result;
    - otherwise discards exactly [n] bytes of the logical input, out of the
      buffer alone when [n <= b] and by reading the source when it cannot
      seek; when the input ends before that, the error of the discard
      ([io.EOF]) is the result. *)
Theorem validate_resolves_pending (r : fileReader) :
  buf_ok (fb r) -> 0 < lN r ->
  let b := Buffered (fb r) in
  let n := lN r in
  let r' := fst (validate r) in
  lN r' = 0 /\ fs r' = fs r /\
  (forall sk, fs r = Some sk -> b < n ->
     buf (fb r') = [] /\ nreads (rd (fb r')) = nreads (rd (fb r)) /\
     match sk (upos (rd (fb r))) (n - b) with
     | Some p => upos (rd (fb r')) = p /\ snd (validate r) = None
     | None => upos (rd (fb r')) = upos (rd (fb r)) /\
               snd (validate r) = Some ErrSeek
     end) /\
  (fs r = Some file_seek -> b < n ->
   Z.of_nat (upos (rd (fb r'))) = Z.of_nat (upos (rd (fb r))) + (n - b) /\
   moved (Z.to_nat n) (fb r) (fb r') /\ snd (validate r) = None) /\
  (fs r = None \/ n <= b ->
   (n <= Z.of_nat (length (rest (fb r))) ->
    moved (Z.to_nat n) (fb r) (fb r') /\ snd (validate r) = None) /\
   (Z.of_nat (length (rest (fb r))) < n ->
    rest (fb r') = [] /\ snd (validate r) = Some EOF) /\
   (n <= b ->
    buf (fb r') = skipn (Z.to_nat n) (buf (fb r)) /\ rd (fb r') = rd (fb r))).
Proof.
  intros Hok Hn b n r'. subst b n r'.
  split; [|split; [|split; [|split]]].
  - unfold validate.
    replace (lN r <=? 0) with false by (symmetry; apply Z.leb_gt; lia).
    destruct (if Buffered (fb r) <? lN r then fs r else None).
    + destruct (src_Seek _ _ _). reflexivity.
    + destruct (Discard _ _). reflexivity.
  - unfold validate.
    replace (lN r <=? 0) with false by (symmetry; apply Z.leb_gt; lia).
    destruct (if Buffered (fb r) <? lN r then fs r else None).
    + destruct (src_Seek _ _ _). reflexivity.
    + destruct (Discard _ _). reflexivity.
  - intros sk Hs Hb. rewrite (validate_seek r sk Hn Hb Hs).
    unfold src_Seek.
    destruct (sk (upos (rd (fb r))) (lN r - Buffered (fb r)));
      cbn [fst snd fb buf rd upos nreads]; repeat split.
  - intros Hs Hb. rewrite (validate_seek r file_seek Hn Hb Hs).
    destruct (seek_moved (fb r) (lN r) Hb) as (s' & -> & Hu & Hmv).
    cbn [fst snd fb rd]. unfold Buffered in *.
    split; [rewrite Hu; lia|]. split; [exact Hmv | reflexivity].
  - intros Hc.
    assert (Hc' : lN r <= Buffered (fb r) \/ fs r = None) by tauto.
    rewrite (validate_discard r Hn Hc').
    destruct (Discard (lN r) (fb r)) as [b1 e] eqn:Ed. cbn [fst snd fb].
    destruct (Discard_spec _ _ _ _ Hok Hn Ed) as (_ & Hres).
    split; [|split].
    + intros Hle. destruct Hres as [(_ & Hmv & ->) | (Hlt & _)]; [|lia].
      split; [exact Hmv | reflexivity].
    + intros Hlt. destruct Hres as [(Hle & _) | (_ & Hmv & ->)]; [lia|].
      split; [|reflexivity]. destruct Hmv as (_ & _ & ->). apply skipn_all.
    + intros Hb. rewrite Discard_buffered in Ed by lia.
      injection Ed as <- <-. split; reflexivity.
Qed.

Lemma validate_resolves_pending_witness :
  let r := fst (ReadTag (fst (ReadHeader (sample_reader (Some file_seek))))) in
  let b := Buffered (fb r) in
  let n := lN r in
  let r' := fst (validate r) in
  lN r' = 0 /\ fs r' = fs r /\
  (forall sk, fs r = Some sk -> b < n ->
     buf (fb r') = [] /\ nreads (rd (fb r')) = nreads (rd (fb r)) /\
     match sk (upos (rd (fb r))) (n - b) with
     | Some p => upos (rd (fb r')) = p /\ snd (validate r) = None
     | None => upos (rd (fb r')) = upos (rd (fb r)) /\
               snd (validate r) = Some ErrSeek
     end) /\
  (fs r = Some file_seek -> b < n ->
   Z.of_nat (upos (rd (fb r'))) = Z.of_nat (upos (rd (fb r))) + (n - b) /\
   moved (Z.to_nat n) (fb r) (fb r') /\ snd (validate r) = None) /\
  (fs r = None \/ n <= b ->
   (n <= Z.of_nat (length (rest (fb r))) ->
    moved (Z.to_nat n) (fb r) (fb r') /\ snd (validate r) = None) /\
   (Z.of_nat (length (rest (fb r))) < n ->
    rest (fb r') = [] /\ snd (validate r) = Some EOF) /\
   (n <= b ->
    buf (fb r') = skipn (Z.to_nat n) (buf (fb r)) /\ rd (fb r') = rd (fb r))).
Proof.
  intros r.
  apply (validate_resolves_pending r);
    [split; [reflexivity | vm_compute; lia] | vm_compute; reflexivity].
Defined.

(** ** The pending count is resolved before every grant *)

Lemma validate_lN (r : fileReader) :
  0 <= lN r -> lN (fst (validate r)) = 0.
Proof.
  intros H. unfold validate. destruct (lN r <=? 0) eqn:E.
  - apply Z.leb_le in E. cbn. lia.
  - destruct (if Buffered (fb r) <? lN r then fs r else None).
    + destruct (src_Seek _ _ _). reflexivity.
    + destruct (Discard _ _). reflexivity.
Qed.

Lemma next_lN (n : Z) (r : fileReader) :
  0 <= lN r -> 0 <= n -> 0 <= lN (fst (next n r)).
Proof.
  intros H Hn. unfold next. pose proof (validate_lN r H) as Hv.
  destruct (validate r) as [r0 [err|]]; cbn [fst] in *; [lia|].
  destruct (Peek n (fb r0)) as [b1 [bs [err|]]]; cbn [fst lN]; lia.
Qed.

Lemma reader_lN (n : Z) (r : fileReader) :
  0 <= lN r -> 0 <= n -> 0 <= lN (fst (reader n r)).
Proof.
  intros H Hn. unfold reader. pose proof (validate_lN r H) as Hv.
  destruct (validate r) as [r0 [err|]]; cbn [fst lN] in *; lia.
Qed.

Lemma bufio_Read_length (m : nat) (b : bufReader) :
  (length (fst (snd (bufio_Read m b))) <= m)%nat.
Proof.
  unfold bufio_Read. destruct (m =? 0)%nat eqn:Em.
  - destruct (0 <? length (buf b))%nat; cbn; lia.
  - destruct (buf b) as [|x xs].
    + destruct (berr b); [cbn; lia|].
      destruct (bsize b <=? m)%nat.
      * destruct (src_Read m (rd b)) as [s' bs] eqn:E.
        destruct (src_Read_spec _ _ _ _ E) as (_ & _ & _ & _ & Hl & _).
        exact Hl.
      * destruct (src_Read (bsize b) (rd b)) as [s' [|y ys]]; [cbn; lia|].
        cbn [fst snd]. apply firstn_le_length.
    + cbn [fst snd]. apply firstn_le_length.
Qed.

Lemma limited_Read_lN (m : nat) (r : fileReader) :
  0 <= lN r -> 0 <= lN (fst (limited_Read m r)).
Proof.
  intros H. unfold limited_Read. destruct (lN r <=? 0) eqn:E; [exact H|].
  apply Z.leb_gt in E.
  set (m' := if lN r <? Z.of_nat m then Z.to_nat (lN r) else m).
  assert (Hm' : Z.of_nat m' <= lN r).
  { subst m'. destruct (Z.ltb_spec (lN r) (Z.of_nat m)); lia. }
  pose proof (bufio_Read_length m' (fb r)) as Hl.
  destruct (bufio_Read m' (fb r)) as [b1 [bs e]]. cbn [fst snd lN] in *. lia.
Qed.

Lemma ReadHeader_lN (r : fileReader) :
  0 <= lN r -> 0 <= lN (fst (ReadHeader r)).
Proof.
  intros H. unfold ReadHeader.
  pose proof (next_lN 9 r H ltac:(lia)) as Hn.
  destruct (next 9 r) as [r1 [b|err]] eqn:En; cbn [fst] in *; [|exact Hn].
  destruct (getUint24 b); [|exact Hn].
  destruct (negb _); [exact Hn|].
  destruct (nth_error b 3); [|exact Hn].
  destruct (negb _); [exact Hn|].
  destruct (getUint32 (skipn 5 b)) as [hlen|] eqn:E32; [|exact Hn].
  destruct (nth_error b 4); [|exact Hn].
  cbn [fst]. unfold skip. destruct (0 <? hlen - 9) eqn:E; [|exact Hn].
  apply Z.ltb_lt in E. cbn [lN].
  apply next_Ok in En as (_ & _ & HN & _).
  apply getUint32_range in E32. rewrite HN, wrap64_small; lia.
Qed.

Lemma ReadTag_lN (r : fileReader) :
  0 <= lN r -> 0 <= lN (fst (ReadTag r)).
Proof.
  intros H. unfold ReadTag.
  pose proof (next_lN 15 r H ltac:(lia)) as Hn.
  destruct (next 15 r) as [r1 [b|err]]; cbn [fst] in *; [|exact Hn].
  destruct (nth_error b 4); [|exact Hn].
  destruct (getInt24 (skipn 5 b)) as [size|] eqn:E24; [|exact Hn].
  destruct (getTime (skipn 8 b)); [|exact Hn].
  destruct (getUint24 (skipn 12 b)); [|exact Hn].
  cbn [Size]. apply getInt24_range in E24.
  pose proof (reader_lN size r1 Hn ltac:(lia)) as Hr.
  destruct (reader size r1) as [r2 [u|err]]; exact Hr.
Qed.

Lemma reachable_lN (r : fileReader) : reachable r -> 0 <= lN r.
Proof.
  induction 1 as [io | r _ IH | r _ IH | m r _ IH].
  - destruct io; cbn; lia.
  - apply ReadHeader_lN, IH.
  - apply ReadTag_lN, IH.
  - apply limited_Read_lN, IH.
Qed.

(** C3. In every state of a reader in use the pending count is not
    negative, and every grant is made on the state that [validate] leaves,
    in which the count is zero: the peek of [next] (for [ReadHeader] and
    [ReadTag]), the sub-reader of [reader], and the sub-reader that
    [ReadTag] asks for on the state its own peek has left. *)
Theorem grants_follow_resolution (r : fileReader) :
  reachable r ->
  0 <= lN r /\
  (forall n r1 bs, next n r = (r1, Ok bs) ->
     exists r0, validate r = (r0, None) /\ lN r0 = 0 /\
                Peek n (fb r0) = (fb r1, (bs, None))) /\
  (forall n r2, reader n r = (r2, Ok tt) ->
     exists r0, validate r = (r0, None) /\ lN r0 = 0 /\
                r2 = mkFile (fb r0) (fs r0) n) /\
  (forall k r1 bs n r2,
     next k r = (r1, Ok bs) -> reader n r1 = (r2, Ok tt) ->
     exists r0, validate r1 = (r0, None) /\ lN r0 = 0 /\
                r2 = mkFile (fb r0) (fs r0) n).
Proof.
  intros Hr. pose proof (reachable_lN r Hr) as HN.
  split; [exact HN|]. split; [|split].
  - intros n r1 bs En.
    destruct (next_Ok _ _ _ _ En) as (_ & _ & _ & r0 & Ev & Ep & _).
    exists r0. split; [exact Ev|]. split; [|exact Ep].
    pose proof (validate_lN r HN) as Hv. rewrite Ev in Hv. exact Hv.
  - intros n r2 Er.
    destruct (reader_Ok _ _ _ _ Er) as (_ & r0 & Ev & ->).
    exists r0. split; [exact Ev|]. split; [|reflexivity].
    pose proof (validate_lN r HN) as Hv. rewrite Ev in Hv. exact Hv.
  - intros k r1 bs n r2 En Er.
    destruct (next_Ok _ _ _ _ En) as (Hk & _ & HN1 & _).
    destruct (reader_Ok _ _ _ _ Er) as (_ & r0 & Ev & ->).
    exists r0. split; [exact Ev|]. split; [|reflexivity].
    pose proof (validate_lN r1 ltac:(lia)) as Hv. rewrite Ev in Hv. exact Hv.
Qed.

Lemma grants_follow_resolution_witness :
  let r := fst (ReadTag (fst (ReadHeader (sample_reader None)))) in
  0 <= lN r /\
  (forall n r1 bs, next n r = (r1, Ok bs) ->
     exists r0, validate r = (r0, None) /\ lN r0 = 0 /\
                Peek n (fb r0) = (fb r1, (bs, None))) /\
  (forall n r2, reader n r = (r2, Ok tt) ->
     exists r0, validate r = (r0, None) /\ lN r0 = 0 /\
                r2 = mkFile (fb r0) (fs r0) n) /\
  (forall k r1 bs n r2,
     next k r = (r1, Ok bs) -> reader n r1 = (r2, Ok tt) ->
     exists r0, validate r1 = (r0, None) /\ lN r0 = 0 /\
                r2 = mkFile (fb r0) (fs r0) n).
Proof.
  intros r.
  apply (grants_follow_resolution r).
  apply reach_tag, reach_header, reach_new.
Defined.

(** ** A sequence of tags *)

Lemma limited_Read_reading (d : list byte) (sk : option Seeker) (q m : nat)
      (r : fileReader) :
  reading d sk q r -> reading d sk q (fst (limited_Read m r)).
Proof.
  intros (Hok & Hfs & Hd & p & Hp & HN & Hq).
  destruct (limited_Read m r) as [r1 [bs e]] eqn:E. cbn [fst].
  destruct (limited_Read_spec _ _ _ _ _ Hok E)
    as (Hok1 & Hfs1 & Hmv & _ & HN1 & _ & Hle & _).
  split; [exact Hok1|]. split; [congruence|].
  split; [destruct Hmv as (-> & _); exact Hd|].
  exists (p + length bs)%nat.
  split; [apply (moved_at_pos _ _ _ _ Hmv Hp) | lia].
Qed.

Lemma read_payload_reading (d : list byte) (sk : option Seeker) (q : nat)
      (ms : list nat) :
  forall r, reading d sk q r -> reading d sk q (read_payload ms r).
Proof.
  induction ms as [|m ms IH]; intros r H; cbn [read_payload]; [exact H|].
  apply IH, limited_Read_reading, H.
Qed.

Lemma read_tags_spec (d : list byte) (sk : option Seeker)
      (trailer : list byte) :
  sk = None \/ sk = Some file_seek ->
  forall ts plan q r,
    reading d sk q r ->
    skipn q d = body ts ++ trailer ->
    Forall tag_ok ts -> length plan = length ts ->
    Forall2 (fun e t => exists tag, snd e = Ok tag /\
                                    tag_of_region (fst t) = Some tag /\
                                    Size tag = Z.of_nat (length (snd t)))
            (fst (read_tags plan r)) ts /\
    Forall2 (fun e p => cursor_at p (fst e))
            (fst (read_tags plan r)) (tag_starts q ts) /\
    reading d sk (q + length (body ts)) (snd (read_tags plan r)).
Proof.
  intros Hsk. induction ts as [|t ts IH]; intros plan q r Hr Hd Hts Hlen.
  - destruct plan; [|discriminate]. cbn.
    rewrite Nat.add_0_r. repeat split; try constructor; apply Hr.
  - destruct plan as [|ms plan]; [discriminate|].
    injection Hlen as Hlen. inversion Hts as [|? ? [Ht15 Htsz] Hts']; subst.
    destruct Hr as (Hok & Hfs & Hdata & Hc).
    cbn [body] in Hd. rewrite <- !app_assoc in Hd.
    assert (Hbytes : (q + 15 + length (snd t) <= length d)%nat).
    { apply (f_equal (@length byte)) in Hd.
      rewrite length_skipn, !length_app in Hd. lia. }
    assert (Hstd : std_seek r) by (unfold std_seek; rewrite Hfs; exact Hsk).
    destruct (ReadTag_cursor q r Hok Hstd Hc)
      as (r2 & tag & Et & Htag & Hok2 & Hfs2 & Hd2 & _ & HN2 & Hc2);
      [rewrite Hdata; lia|].
    rewrite Hdata, Hd in Htag. rewrite firstn_app_le in Htag by lia.
    rewrite firstn_all2 in Htag by lia.
    destruct (tag_of_region_size _ _ Htag) as [Hsz _].
    assert (Hsize : Size tag = Z.of_nat (length (snd t))) by congruence.
    rewrite Hsize, Nat2Z.id in Hc2.
    set (q' := (q + 15 + length (snd t))%nat) in *.
    assert (Hr2 : reading d sk q' (read_payload ms r2)).
    { apply read_payload_reading.
      split; [exact Hok2|]. split; [congruence|]. split; [congruence|].
      exact Hc2. }
    assert (Hd' : skipn q' d = body ts ++ trailer).
    { subst q'.
      replace (q + 15 + length (snd t))%nat
        with ((15 + length (snd t)) + q)%nat by lia.
      rewrite <- skipn_skipn, Hd, app_assoc, skipn_app_le
        by (rewrite length_app; lia).
      rewrite skipn_all2 by (rewrite length_app; lia). reflexivity. }
    destruct (IH plan q' _ Hr2 Hd' Hts' Hlen) as (IH1 & IH2 & IH3).
    cbn [read_tags]. rewrite Et.
    destruct (read_tags plan (read_payload ms r2)) as [log r3].
    cbn [fst snd tag_starts body] in *.
    split; [|split].
    + constructor; [|exact IH1]. exists tag. cbn [snd].
      split; [reflexivity|]. split; [exact Htag | exact Hsize].
    + constructor; [exact Hc | exact IH2].
    + replace (q + length (fst t ++ snd t ++ body ts))%nat
        with (q' + length (body ts))%nat
        by (rewrite !length_app; lia).
      exact IH3.
Qed.

Lemma log_sizes (log : list (fileReader * result Tag)) (ts : list TagBytes) :
  Forall2 (fun e t => exists tag, snd e = Ok tag /\
                                  tag_of_region (fst t) = Some tag /\
                                  Size tag = Z.of_nat (length (snd t)))
          log ts ->
  map (fun e => result_size (snd e)) log
  = map (fun t => Some (Z.of_nat (length (snd t)))) ts.
Proof.
  induction 1 as [|e t log ts (tag & He & _ & Hs) _ IH]; cbn [map];
    [reflexivity|].
  rewrite He, IH. cbn [result_size]. now rewrite Hs.
Qed.

(** C1. Let the input hold a valid header, then the tags [ts], each a
    fifteen-byte region whose size field gives the length of the payload
    that follows it, then anything.  After [ReadHeader], one [ReadTag] per
    tag, each followed by whatever reads of its payload stream [plan]
    lists (none, some, or enough to exhaust it), returns the tags of the
    regions in order, with the payload sizes in order as their [Size]; at
    every call of [ReadTag] the cursor is at the start of that tag's fixed
    region, and after the last payload it is at the end of the tags. *)
Theorem ReadTag_sequence (s : Source) (L : Z) (ts : list TagBytes)
        (trailer : list byte) (plan : list (list nat)) :
  upos s = 0%nat -> (seek s = None \/ seek s = Some file_seek) ->
  (9 <= length (data s))%nat ->
  firstn 3 (data s) = [x46; x4c; x56] -> nth 3 (data s) x00 = x01 ->
  getUint32 (skipn 5 (data s)) = Some L ->
  let q := Z.to_nat (if 9 <? L then L else 9) in
  skipn q (data s) = body ts ++ trailer ->
  Forall tag_ok ts -> length plan = length ts ->
  let r1 := fst (ReadHeader (newFileReader (FromSource s))) in
  let log := fst (read_tags plan r1) in
  map (fun e => result_size (snd e)) log
  = map (fun t => Some (Z.of_nat (length (snd t)))) ts /\
  Forall2 (fun e t => exists tag, snd e = Ok tag /\
                                  tag_of_region (fst t) = Some tag) log ts /\
  Forall2 (fun e p => cursor_at p (fst e)) log (tag_starts q ts) /\
  cursor_at (q + length (body ts)) (snd (read_tags plan r1)).
Proof.
  intros Hp Hseek Hlen Hsig Hver HL q Hbody Hts Hplan r1 log.
  subst q r1 log.
  destruct (ReadHeader_valid s L Hp Hlen Hsig Hver HL)
    as (r1 & -> & Hok1 & Hfs1 & Hd1 & _ & _ & Hc1).
  cbn [fst].
  replace (if 9 <? L then L else 9) with (Z.max L 9) in *
    by (destruct (Z.ltb_spec 9 L); lia).
  assert (Hr1 : reading (data s) (seek s) (Z.to_nat (Z.max L 9)) r1).
  { split; [exact Hok1|]. split; [exact Hfs1|]. split; [exact Hd1 | exact Hc1]. }
  destruct (read_tags_spec (data s) (seek s) trailer Hseek ts plan _ r1
              Hr1 Hbody Hts Hplan) as (H1 & H2 & H3).
  split; [apply log_sizes, H1|]. split; [|split; [exact H2 | apply H3]].
  clear -H1. induction H1 as [|e t log ts (tag & He & Ht & _) _ IH];
    constructor; [exists tag; split; assumption | exact IH].
Qed.

Lemma ReadTag_sequence_witness :
  let s := sample_source sample_file (Some file_seek) in
  let ts := [(sample_region1, sample_payload1);
             (sample_region2, sample_payload2)] in
  let plan := [[]; [1%nat]] in
  let q := Z.to_nat (if 9 <? 9 then 9 else 9) in
  let r1 := fst (ReadHeader (newFileReader (FromSource s))) in
  let log := fst (read_tags plan r1) in
  map (fun e => result_size (snd e)) log
  = map (fun t => Some (Z.of_nat (length (snd t)))) ts /\
  Forall2 (fun e t => exists tag, snd e = Ok tag /\
                                  tag_of_region (fst t) = Some tag) log ts /\
  Forall2 (fun e p => cursor_at p (fst e)) log (tag_starts q ts) /\
  cursor_at (q + length (body ts)) (snd (read_tags plan r1)).
Proof.
  intros s ts plan.
  apply (ReadTag_sequence s 9 ts sample_trailer plan);
    [reflexivity | right; reflexivity | cbn; lia | reflexivity | reflexivity
    | reflexivity | reflexivity | | reflexivity].
  repeat constructor.
Defined.

(** ** Read-and-discard against seek *)

Lemma std_seek_fs (r r1 : fileReader) :
  fs r1 = fs r -> std_seek r -> std_seek r1.
Proof. unfold std_seek. intros ->. exact (fun H => H). Qed.

Lemma same_view_intro (r r' : fileReader) :
  file_ok r -> file_ok r' -> std_seek r -> std_seek r' ->
  rest (fb r) = rest (fb r') -> lN r = lN r' -> same_view r r'.
Proof. unfold same_view. tauto. Qed.

Lemma next_view (n : Z) (r r' : fileReader) :
  same_view r r' -> 0 < n <= 16 ->
  snd (next n r) = snd (next n r') /\
  same_view (fst (next n r)) (fst (next n r')) /\
  (forall bs, snd (next n r) = Ok bs ->
     lN (fst (next n r)) <= Z.of_nat (length (rest (fb (fst (next n r)))))).
Proof.
  intros (Hok & Hok' & Hstd & Hstd' & Hrest & HN) Hn.
  destruct (next n r) as [r1 res] eqn:E.
  destruct (next n r') as [r1' res'] eqn:E'. cbn [fst snd].
  destruct (next_spec n _ _ _ Hok (fun _ => Hstd) ltac:(lia) ltac:(lia) E)
    as (Hok1 & Hfs1 & Hmv1 & Hres1).
  destruct (next_spec n _ _ _ Hok' (fun _ => Hstd') ltac:(lia) ltac:(lia) E')
    as (Hok1' & Hfs1' & Hmv1' & Hres1').
  assert (Hr1 : rest (fb r1) = rest (fb r1')).
  { destruct Hmv1 as (_ & _ & ->). destruct Hmv1' as (_ & _ & ->).
    now rewrite Hrest, HN. }
  rewrite <- Hrest, <- HN in Hres1'.
  destruct Hres1 as [(Hle & -> & HN1 & Hb1) | (Hlt & -> & HN1)];
    destruct Hres1' as [(Hle' & -> & HN1' & Hb1') | (Hlt' & -> & HN1')];
    try lia.
  - split; [reflexivity|]. split.
    + apply same_view_intro; try assumption;
        try (eapply std_seek_fs; eassumption); congruence.
    + intros _ _. unfold Buffered, rest in *. rewrite length_app. lia.
  - split; [reflexivity|]. split.
    + apply same_view_intro; try assumption;
        try (eapply std_seek_fs; eassumption); congruence.
    + intros bs [=].
Qed.

Lemma reader_view (n : Z) (r r' : fileReader) :
  same_view r r' -> lN r <= Z.of_nat (length (rest (fb r))) ->
  snd (reader n r) = snd (reader n r') /\
  same_view (fst (reader n r)) (fst (reader n r')).
Proof.
  intros (Hok & Hok' & Hstd & Hstd' & Hrest & HN) Hle.
  destruct (reader n r) as [r1 res] eqn:E.
  destruct (reader n r') as [r1' res'] eqn:E'. cbn [fst snd].
  destruct (reader_spec n _ _ _ Hok (fun _ => Hstd) Hle E)
    as (Hok1 & Hfs1 & Hmv1 & -> & HN1).
  rewrite Hrest, HN in Hle.
  destruct (reader_spec n _ _ _ Hok' (fun _ => Hstd') Hle E')
    as (Hok1' & Hfs1' & Hmv1' & -> & HN1').
  split; [reflexivity|].
  apply same_view_intro; try assumption;
    try (eapply std_seek_fs; eassumption); try congruence.
  destruct Hmv1 as (_ & _ & ->). destruct Hmv1' as (_ & _ & ->).
  now rewrite Hrest, HN.
Qed.

Lemma skip_view (n : Z) (r r' : fileReader) :
  same_view r r' -> same_view (skip n r) (skip n r').
Proof.
  intros (Hok & Hok' & Hstd & Hstd' & Hrest & HN).
  unfold skip. destruct (0 <? n); apply same_view_intro; try assumption.
  cbn [lN]. now rewrite HN.
Qed.

Lemma ReadHeader_view (r r' : fileReader) :
  same_view r r' ->
  snd (ReadHeader r) = snd (ReadHeader r') /\
  same_view (fst (ReadHeader r)) (fst (ReadHeader r')).
Proof.
  intros Hv. destruct (next_view 9 r r' Hv ltac:(lia)) as (Hres & Hv1 & _).
  unfold ReadHeader.
  destruct (next 9 r) as [r1 res]. destruct (next 9 r') as [r1' res'].
  cbn [fst snd] in *. subst res'.
  destruct res as [b|e]; [|split; [reflexivity | exact Hv1]].
  destruct (getUint24 b); [|split; [reflexivity | exact Hv1]].
  destruct (negb _); [split; [reflexivity | exact Hv1]|].
  destruct (nth_error b 3); [|split; [reflexivity | exact Hv1]].
  destruct (negb _); [split; [reflexivity | exact Hv1]|].
  destruct (getUint32 (skipn 5 b)); [|split; [reflexivity | exact Hv1]].
  destruct (nth_error b 4); [|split; [reflexivity | exact Hv1]].
  cbn [fst snd]. split; [reflexivity | apply skip_view, Hv1].
Qed.

Lemma ReadTag_view (r r' : fileReader) :
  same_view r r' ->
  snd (ReadTag r) = snd (ReadTag r') /\
  same_view (fst (ReadTag r)) (fst (ReadTag r')).
Proof.
  intros Hv. destruct (next_view 15 r r' Hv ltac:(lia)) as (Hres & Hv1 & Hle).
  unfold ReadTag.
  destruct (next 15 r) as [r1 res]. destruct (next 15 r') as [r1' res'].
  cbn [fst snd] in *. subst res'.
  destruct res as [b|e]; [|split; [reflexivity | exact Hv1]].
  specialize (Hle b eq_refl).
  destruct (nth_error b 4); [|split; [reflexivity | exact Hv1]].
  destruct (getInt24 (skipn 5 b)) as [size|]; [|split; [reflexivity | exact Hv1]].
  destruct (getTime (skipn 8 b)); [|split; [reflexivity | exact Hv1]].
  destruct (getUint24 (skipn 12 b)); [|split; [reflexivity | exact Hv1]].
  cbn [Size].
  destruct (reader_view size r1 r1' Hv1 Hle) as (Hres2 & Hv2).
  destruct (reader size r1) as [r2 res2]. destruct (reader size r1') as [r2' res2'].
  cbn [fst snd] in *. subst res2'.
  destruct res2; split; try reflexivity; exact Hv2.
Qed.

Lemma firstn_add {A} (a b : nat) (l : list A) :
  firstn (a + b) l = firstn a l ++ firstn b (skipn a l).
Proof.
  revert l. induction a as [|a IH]; intros l; [reflexivity|].
  destruct l as [|x l]; cbn [Nat.add firstn skipn app].
  - now rewrite firstn_nil.
  - now rewrite IH.
Qed.

(** [io.ReadFull] delivers as many bytes as the request, the pending count
    and the input allow, whatever the sizes of the single reads. *)
Lemma readFull_loop_spec (fuel want : nat) :
  forall acc r r1 bs e,
    file_ok r -> (want <= fuel + length acc)%nat ->
    readFull_loop fuel want acc r = (r1, (bs, e)) ->
    let k := Nat.min (want - length acc)
                     (Nat.min (Z.to_nat (lN r)) (length (rest (fb r)))) in
    file_ok r1 /\ fs r1 = fs r /\ moved k (fb r) (fb r1) /\
    lN r1 = lN r - Z.of_nat k /\ bs = acc ++ firstn k (rest (fb r)) /\
    e = if (want - length acc <=? k)%nat then None else Some EOF.
Proof.
  induction fuel as [|f IH]; intros acc r r1 bs e Hok Hf H k.
  - cbn in H. injection H as <- <- <-.
    assert (Hk : k = 0%nat) by (subst k; lia). rewrite Hk.
    cbn [firstn]. rewrite app_nil_r, Z.sub_0_r.
    replace (want - length acc <=? 0)%nat with true
      by (symmetry; apply Nat.leb_le; lia).
    repeat split; try apply Hok; apply moved_refl.
  - cbn [readFull_loop] in H.
    destruct (length acc <? want)%nat eqn:Ew.
    + apply Nat.ltb_lt in Ew.
      destruct (limited_Read (want - length acc) r) as [r0 [bs0 e0]] eqn:El.
      destruct (limited_Read_spec _ _ _ _ _ Hok El)
        as (Hok0 & Hfs0 & Hmv0 & Hbs0 & HN0 & Hlm & HlN & Hcase).
      assert (Hlr : (length bs0 <= length (rest (fb r)))%nat).
      { rewrite Hbs0, length_firstn. lia. }
      assert (Hr0 : length (rest (fb r0))
                    = (length (rest (fb r)) - length bs0)%nat).
      { destruct Hmv0 as (_ & _ & ->). apply length_skipn. }
      destruct Hcase as [[Hne ->] | [(-> & -> & Hm0 & _) | (-> & -> & Hend)]].
      * assert (Hpos : (0 < length bs0)%nat)
          by (destruct bs0; [congruence | cbn; lia]).
        destruct (IH (acc ++ bs0) r0 r1 bs e Hok0) as
            (Hok1 & Hfs1 & Hmv1 & HN1 & Hbs & He);
          [rewrite length_app; lia | exact H |].
        rewrite length_app in *.
        set (k' := Nat.min (want - (length acc + length bs0))
                     (Nat.min (Z.to_nat (lN r0)) (length (rest (fb r0))))) in *.
        assert (Hk : k = (length bs0 + k')%nat) by (subst k k'; lia).
        rewrite Hk.
        split; [exact Hok1|]. split; [congruence|].
        split; [eapply moved_trans; eassumption|].
        split; [lia|]. split.
        -- rewrite Hbs, <- app_assoc. f_equal.
           rewrite firstn_add. f_equal; [exact Hbs0|].
           destruct Hmv0 as (_ & _ & ->). reflexivity.
        -- rewrite He.
           destruct (Nat.leb_spec (want - (length acc + length bs0)) k');
             destruct (Nat.leb_spec (want - length acc) (length bs0 + k'));
             try reflexivity; lia.
      * lia.
      * injection H as <- <- <-. cbn [length] in *.
        assert (Hk : k = 0%nat) by (subst k; destruct Hend as [?| ->]; cbn; lia).
        rewrite Hk. cbn [firstn]. rewrite Z.sub_0_r in *.
        replace (want - length acc <=? 0)%nat with false
          by (symmetry; apply Nat.leb_gt; lia).
        split; [exact Hok0|]. split; [exact Hfs0|]. split; [exact Hmv0|].
        split; [exact HN0|]. split; reflexivity.
    + apply Nat.ltb_ge in Ew. injection H as <- <- <-.
      assert (Hk : k = 0%nat) by (subst k; lia). rewrite Hk.
      cbn [firstn]. rewrite app_nil_r, Z.sub_0_r.
      replace (want - length acc <=? 0)%nat with true
        by (symmetry; apply Nat.leb_le; lia).
      repeat split; try apply Hok; apply moved_refl.
Qed.

(** The loop of [io.ReadFull] has left when its fuel ends: more fuel
    changes nothing. *)
Lemma readFull_loop_enough (fuel want extra : nat) :
  forall acc r,
    file_ok r -> (want <= fuel + length acc)%nat ->
    readFull_loop (fuel + extra) want acc r = readFull_loop fuel want acc r.
Proof.
  induction fuel as [|f IH]; intros acc r Hok Hf.
  - cbn [Nat.add readFull_loop]. destruct extra; [reflexivity|].
    cbn [readFull_loop].
    replace (length acc <? want)%nat with false
      by (symmetry; apply Nat.ltb_ge; lia).
    reflexivity.
  - cbn [Nat.add readFull_loop].
    destruct (length acc <? want)%nat eqn:Ew; [|reflexivity].
    apply Nat.ltb_lt in Ew.
    destruct (limited_Read (want - length acc) r) as [r0 [bs0 e0]] eqn:El.
    destruct e0 as [err|]; [reflexivity|].
    destruct (limited_Read_spec _ _ _ _ _ Hok El)
      as (Hok0 & _ & _ & _ & _ & _ & _ & Hcase).
    apply IH; [exact Hok0|]. rewrite length_app.
    destruct Hcase as [[Hne _] | [(_ & _ & Hm0 & _) | (_ & [=] & _)]];
      [|lia].
    destruct bs0; [congruence | cbn; lia].
Qed.

Lemma ReadFull_spec (m : nat) (r r1 : fileReader) (bs : list byte)
      (e : option error) :
  file_ok r -> ReadFull m r = (r1, (bs, e)) ->
  let k := Nat.min m (Nat.min (Z.to_nat (lN r)) (length (rest (fb r)))) in
  file_ok r1 /\ fs r1 = fs r /\ moved k (fb r) (fb r1) /\
  lN r1 = lN r - Z.of_nat k /\ bs = firstn k (rest (fb r)) /\
  e = if (m <=? k)%nat then None
      else if (0 <? k)%nat then Some ErrUnexpectedEOF else Some EOF.
Proof.
  intros Hok H k. unfold ReadFull in H.
  destruct (readFull_loop m m [] r) as [r0 [bs0 e0]] eqn:El.
  injection H as <- <- <-.
  destruct (readFull_loop_spec m m [] r r0 bs0 e0 Hok ltac:(cbn; lia) El)
    as (Hok1 & Hfs1 & Hmv1 & HN1 & Hbs & He).
  cbn [length app] in *. rewrite Nat.sub_0_r in *. fold k in Hmv1, HN1, Hbs, He.
  assert (Hlen : length bs0 = k).
  { rewrite Hbs, length_firstn. subst k. lia. }
  split; [exact Hok1|]. split; [exact Hfs1|]. split; [exact Hmv1|].
  split; [exact HN1|]. split; [exact Hbs|].
  rewrite Hlen, He. destruct (m <=? k)%nat; reflexivity.
Qed.

Lemma ReadFull_view (m : nat) (r r' : fileReader) :
  same_view r r' ->
  snd (ReadFull m r) = snd (ReadFull m r') /\
  same_view (fst (ReadFull m r)) (fst (ReadFull m r')).
Proof.
  intros (Hok & Hok' & Hstd & Hstd' & Hrest & HN).
  destruct (ReadFull m r) as [r1 [bs e]] eqn:E.
  destruct (ReadFull m r') as [r1' [bs' e']] eqn:E'. cbn [fst snd].
  destruct (ReadFull_spec _ _ _ _ _ Hok E)
    as (Hok1 & Hfs1 & Hmv1 & HN1 & -> & ->).
  destruct (ReadFull_spec _ _ _ _ _ Hok' E')
    as (Hok1' & Hfs1' & Hmv1' & HN1' & -> & ->).
  rewrite <- Hrest, <- HN in *.
  split; [reflexivity|].
  apply same_view_intro; try assumption;
    try (eapply std_seek_fs; eassumption); try congruence.
  destruct Hmv1 as (_ & _ & ->). destruct Hmv1' as (_ & _ & ->).
  now rewrite Hrest.
Qed.

Lemma step_view (o : op) (r r' : fileReader) :
  same_view r r' ->
  snd (step o r) = snd (step o r') /\
  same_view (fst (step o r)) (fst (step o r')).
Proof.
  intros Hv. destruct o as [| |m]; unfold step.
  - destruct (ReadHeader_view r r' Hv) as [Hres Hv1].
    destruct (ReadHeader r) as [r1 res]. destruct (ReadHeader r') as [r1' res'].
    cbn [fst snd] in *. now subst res'.
  - destruct (ReadTag_view r r' Hv) as [Hres Hv1].
    destruct (ReadTag r) as [r1 res]. destruct (ReadTag r') as [r1' res'].
    cbn [fst snd] in *. now subst res'.
  - destruct (ReadFull_view m r r' Hv) as [Hres Hv1].
    destruct (ReadFull m r) as [r1 [bs e]].
    destruct (ReadFull m r') as [r1' [bs' e']].
    cbn [fst snd] in *. injection Hres as <- <-. now split.
Qed.

Lemma run_view (script : list op) :
  forall r r', same_view r r' -> run script r = run script r'.
Proof.
  induction script as [|o script IH]; intros r r' Hv; [reflexivity|].
  cbn [run]. destruct (step_view o r r' Hv) as [Hob Hv1].
  destruct (step o r) as [r1 ob]. destruct (step o r') as [r1' ob'].
  cbn [fst snd] in *. subst ob'. f_equal. apply IH, Hv1.
Qed.

(** C4. Over the same input, a reader whose source cannot seek (it skips
    by reading and discarding) and a reader whose source seeks as a regular
    file does (it skips by seeking when more is pending than is buffered)
    show the same to every caller: for every sequence of [ReadHeader],
    [ReadTag] and [io.ReadFull] calls on the payload stream, the headers,
    tags, payload bytes and errors returned are the same, whatever the
    sizes of the reads the two sources deliver. *)
Theorem skip_strategies_agree (contents : list byte)
        (sched1 sched2 : nat -> nat) (script : list op) :
  run script (newFileReader (FromSource (mkSource contents 0 sched1 0 None)))
  = run script (newFileReader
                  (FromSource (mkSource contents 0 sched2 0 (Some file_seek)))).
Proof.
  apply run_view.
  destruct (fresh_reader (mkSource contents 0 sched1 0 None) eq_refl)
    as (Hok & _ & HN & Hfs & _).
  destruct (fresh_reader (mkSource contents 0 sched2 0 (Some file_seek)) eq_refl)
    as (Hok' & _ & HN' & Hfs' & _).
  apply same_view_intro; try assumption.
  - left. exact Hfs.
  - right. exact Hfs'.
  - reflexivity.
Qed.

(** The two readers do differ inside: on the sample input, with the first
    payload left unread, the resolution before the second [ReadTag] reads
    the source once more when it cannot seek, and seeks by one byte when it
    can. *)
Example skip_strategies_differ_inside :
  let r1 := fst (ReadTag (fst (ReadHeader (sample_reader None)))) in
  let r2 := fst (ReadTag (fst (ReadHeader (sample_reader (Some file_seek))))) in
  snd (ReadTag r1) = snd (ReadTag r2) /\
  upos (rd (fb (fst (validate r1)))) = 35%nat /\
  upos (rd (fb (fst (validate r2)))) = 29%nat.
Proof. vm_compute. repeat split. Qed.

(** A source that has a [Seek] method which fails (a pipe opened as a
    file) is taken for seekable by [newFileReader]: with the first payload
    left unread and more pending than buffered, the next [ReadTag] drops
    the buffer and returns the error of the seek.  The statements above
    that speak of a seekable source are about [file_seek]. *)
Example skip_on_pipe :
  let r1 := fst (ReadTag (fst (ReadHeader (sample_reader (Some pipe_seek))))) in
  snd (ReadTag r1) = Err ErrSeek /\ buf (fb (fst (ReadTag r1))) = [].
Proof. vm_compute. split; reflexivity. Qed.

(** The signature message for the bytes "XXX": [%x] is applied to the
    string that [hex.EncodeToString] has already made of them. *)
Example errSignature_XXX :
  errSignature [x58; x58; x58; x01; x05; x00; x00; x00; x09]
  = ErrFormat "flv: incorrect signature: 0x353835383538"%string.
Proof. reflexivity. Qed.

Example errVersion_2 :
  errVersion x02 = ErrFormat "flv: unsupported version: 2"%string.
Proof. reflexivity. Qed.

(** * Further properties of reader.go *)

(** ** The codec beyond the round trip of the timestamp *)

Lemma low24_bytes (v : Z) :
  v mod 256 + (v / 2 ^ 8) mod 256 * 2 ^ 8 + (v / 2 ^ 16) mod 256 * 2 ^ 16
  = v mod 2 ^ 24.
Proof.
  change (2 ^ 24) with (256 * (256 * 256)).
  change (2 ^ 16) with (256 * 256). change (2 ^ 8) with 256.
  rewrite (Z.rem_mul_r v 256 (256 * 256)) by lia.
  rewrite (Z.rem_mul_r (v / 256) 256 256) by lia.
  rewrite Z.div_div by lia. lia.
Qed.

Lemma low32_bytes (v : Z) :
  v mod 256 + (v / 2 ^ 8) mod 256 * 2 ^ 8 + (v / 2 ^ 16) mod 256 * 2 ^ 16
  + (v / 2 ^ 24) mod 256 * 2 ^ 24 = v mod 2 ^ 32.
Proof.
  rewrite low24_bytes.
  change (2 ^ 32) with (2 ^ 24 * 256).
  rewrite (Z.rem_mul_r v (2 ^ 24) 256) by lia. lia.
Qed.

(** The byte at weight [d] of a number written in base 256. *)
Lemma digit_extract (lo x hi d : Z) :
  0 < d -> 0 <= lo < d -> 0 <= x < 256 ->
  ((lo + x * d + hi * (256 * d)) / d) mod 256 = x.
Proof.
  intros Hd Hlo Hx.
  rewrite <- (Z.div_unique (lo + x * d + hi * (256 * d)) d (x + 256 * hi) lo)
    by (try lia; left; lia).
  symmetry. apply (Z.mod_unique _ 256 hi x); lia.
Qed.

Lemma uint8_digit (x : byte) (z : Z) : z mod 256 = byteZ x -> uint8 z = x.
Proof. intros H. apply byteZ_inj. now rewrite byteZ_uint8. Qed.

(** X1. [putUint24] writes the low 24 bits of [v] and nothing else: into
    a buffer of at least three bytes it succeeds, decoding what it wrote
    gives [v mod 2^24] (hence [v] itself when [v < 2^24], and a value that
    has lost its top byte otherwise), and the bytes after the third are
    left as they were. *)
Theorem putUint24_getUint24 (b : list byte) (v : Z) :
  (3 <= length b)%nat ->
  exists b', putUint24 b v = Some b' /\
             getUint24 b' = Some (v mod 2 ^ 24) /\
             (0 <= v < 2 ^ 24 -> getUint24 b' = Some v) /\
             skipn 3 b' = skipn 3 b /\ length b' = length b.
Proof.
  intros Hb. destruct b as [|c0 [|c1 [|c2 tl]]]; try (cbn in Hb; lia).
  eexists. split; [reflexivity|].
  assert (E : getUint24 (uint8 (Z.shiftr v 16) :: uint8 (Z.shiftr v 8)
                           :: uint8 v :: tl) = Some (v mod 2 ^ 24)).
  { rewrite getUint24_sum, !byteZ_uint8, !Z.shiftr_div_pow2 by lia.
    f_equal. rewrite <- low24_bytes. lia. }
  split; [exact E|]. split; [|split; reflexivity].
  intros Hv. rewrite E, Z.mod_small by lia. reflexivity.
Qed.

Lemma putUint24_getUint24_witness :
  exists b', putUint24 [x00; x00; x00; xff] 16909060 = Some b' /\
             getUint24 b' = Some (16909060 mod 2 ^ 24) /\
             (0 <= 16909060 < 2 ^ 24 -> getUint24 b' = Some 16909060) /\
             skipn 3 b' = skipn 3 [x00; x00; x00; xff] /\
             length b' = length [x00; x00; x00; xff].
Proof.
  apply (putUint24_getUint24 [x00; x00; x00; xff] 16909060). cbn. lia.
Defined.

(** X2. [putUint32] followed by [getUint32] is the identity on [uint32]:
    into a buffer of at least four bytes the write succeeds, decoding gives
    [v mod 2^32], which is [v] for every [uint32], and the bytes after the
    fourth are left as they were. *)
Theorem putUint32_getUint32 (b : list byte) (v : Z) :
  (4 <= length b)%nat ->
  exists b', putUint32 b v = Some b' /\
             getUint32 b' = Some (v mod 2 ^ 32) /\
             (0 <= v < 2 ^ 32 -> getUint32 b' = Some v) /\
             skipn 4 b' = skipn 4 b /\ length b' = length b.
Proof.
  intros Hb. destruct b as [|c0 [|c1 [|c2 [|c3 tl]]]]; try (cbn in Hb; lia).
  eexists. split; [reflexivity|].
  assert (E : getUint32 (uint8 (Z.shiftr v 24) :: uint8 (Z.shiftr v 16)
                           :: uint8 (Z.shiftr v 8) :: uint8 v :: tl)
              = Some (v mod 2 ^ 32)).
  { rewrite getUint32_sum, !byteZ_uint8, !Z.shiftr_div_pow2 by lia.
    f_equal. rewrite <- low32_bytes. lia. }
  split; [exact E|]. split; [|split; reflexivity].
  intros Hv. rewrite E, Z.mod_small by lia. reflexivity.
Qed.

Lemma putUint32_getUint32_witness :
  exists b', putUint32 [x00; x00; x00; x00; xff] 4275878552 = Some b' /\
             getUint32 b' = Some (4275878552 mod 2 ^ 32) /\
             (0 <= 4275878552 < 2 ^ 32 -> getUint32 b' = Some 4275878552) /\
             skipn 4 b' = skipn 4 [x00; x00; x00; x00; xff] /\
             length b' = length [x00; x00; x00; x00; xff].
Proof.
  apply (putUint32_getUint32 [x00; x00; x00; x00; xff] 4275878552). cbn. lia.
Defined.

(** X3. [putTime] keeps the low 32 bits of its [int64] argument, whatever
    its sign: decoding what it wrote gives [v mod 2^32], so a negative
    timestamp or one of 2^32 and more comes back as another, non-negative
    value; the bytes after the fourth are left as they were. *)
Theorem putTime_truncates (b : list byte) (v : Z) :
  (4 <= length b)%nat ->
  exists b', putTime b v = Some b' /\
             getTime b' = Some (v mod 2 ^ 32) /\
             skipn 4 b' = skipn 4 b /\ length b' = length b.
Proof.
  intros Hb. destruct b as [|c0 [|c1 [|c2 [|c3 tl]]]]; try (cbn in Hb; lia).
  eexists. split; [reflexivity|]. split; [|split; reflexivity].
  rewrite getTime_sum, !byteZ_uint8, !Z.shiftr_div_pow2 by lia.
  f_equal. rewrite <- low32_bytes. lia.
Qed.

Lemma putTime_truncates_witness :
  exists b', putTime [x00; x00; x00; x00] (-1) = Some b' /\
             getTime b' = Some ((-1) mod 2 ^ 32) /\
             skipn 4 b' = skipn 4 [x00; x00; x00; x00] /\
             length b' = length [x00; x00; x00; x00].
Proof.
  apply (putTime_truncates [x00; x00; x00; x00] (-1)). cbn. lia.
Defined.

Lemma digit_low (x hi : Z) : 0 <= x < 256 -> (x + hi * 256) mod 256 = x.
Proof. intros H. symmetry. apply (Z.mod_unique _ 256 hi x); lia. Qed.

(** [uint8 (v >> k)] is the byte [x] when [v] is [lo + x * d + hi * 256 * d]
    with [d = 2^k] and [lo < d]. *)
Ltac shifted_digit lo x hi d :=
  apply uint8_digit; rewrite Z.shiftr_div_pow2 by lia;
  match goal with
  | |- (?v / _) mod 256 = _ =>
      replace v with (lo + x * d + hi * (256 * d)) by lia
  end;
  apply digit_extract; lia.

Ltac low_digit x hi :=
  apply uint8_digit;
  match goal with
  | |- ?v mod 256 = _ => replace v with (x + hi * 256) by lia
  end;
  apply digit_low; lia.

(** X4. Encoding what was decoded gives the bytes back: for each of the
    three encodings, writing the decoded value over the buffer it was
    read from leaves the buffer as it is.  The decoders therefore lose
    nothing of the three (or four) bytes they read. *)
Theorem decode_then_encode (b : list byte) :
  (forall v, getUint24 b = Some v -> putUint24 b v = Some b) /\
  (forall v, getUint32 b = Some v -> putUint32 b v = Some b) /\
  (forall v, getTime b = Some v -> putTime b v = Some b).
Proof.
  split; [|split]; intros v H.
  - destruct b as [|b0 [|b1 [|b2 tl]]]; try discriminate.
    rewrite getUint24_sum in H. injection H as H.
    pose proof (byteZ_range b0). pose proof (byteZ_range b1).
    pose proof (byteZ_range b2).
    unfold putUint24. do 2 f_equal; [|f_equal; [|f_equal]].
    + shifted_digit (byteZ b2 + byteZ b1 * 2 ^ 8) (byteZ b0) 0 (2 ^ 16).
    + shifted_digit (byteZ b2) (byteZ b1) (byteZ b0) (2 ^ 8).
    + low_digit (byteZ b2) (byteZ b1 + byteZ b0 * 2 ^ 8).
  - destruct b as [|b0 [|b1 [|b2 [|b3 tl]]]]; try discriminate.
    rewrite getUint32_sum in H. injection H as H.
    pose proof (byteZ_range b0). pose proof (byteZ_range b1).
    pose proof (byteZ_range b2). pose proof (byteZ_range b3).
    unfold putUint32. do 2 f_equal; [|f_equal; [|f_equal; [|f_equal]]].
    + shifted_digit (byteZ b3 + byteZ b2 * 2 ^ 8 + byteZ b1 * 2 ^ 16)
                    (byteZ b0) 0 (2 ^ 24).
    + shifted_digit (byteZ b3 + byteZ b2 * 2 ^ 8) (byteZ b1) (byteZ b0)
                    (2 ^ 16).
    + shifted_digit (byteZ b3) (byteZ b2) (byteZ b1 + byteZ b0 * 2 ^ 8)
                    (2 ^ 8).
    + low_digit (byteZ b3)
                (byteZ b2 + byteZ b1 * 2 ^ 8 + byteZ b0 * 2 ^ 16).
  - destruct b as [|b0 [|b1 [|b2 [|b3 tl]]]]; try discriminate.
    rewrite getTime_sum in H. injection H as H.
    pose proof (byteZ_range b0). pose proof (byteZ_range b1).
    pose proof (byteZ_range b2). pose proof (byteZ_range b3).
    unfold putTime. do 2 f_equal; [|f_equal; [|f_equal; [|f_equal]]].
    + shifted_digit (byteZ b2 + byteZ b1 * 2 ^ 8) (byteZ b0) (byteZ b3)
                    (2 ^ 16).
    + shifted_digit (byteZ b2) (byteZ b1) (byteZ b0 + byteZ b3 * 2 ^ 8)
                    (2 ^ 8).
    + low_digit (byteZ b2)
                (byteZ b1 + byteZ b0 * 2 ^ 8 + byteZ b3 * 2 ^ 16).
    + shifted_digit (byteZ b2 + byteZ b1 * 2 ^ 8 + byteZ b0 * 2 ^ 16)
                    (byteZ b3) 0 (2 ^ 24).
Qed.

(** X5. [getInt24] and [getUint24] read the same number off every slice
    (and both panic on the same, too short, ones): the [uint32] arithmetic
    of [getUint24] never wraps, and the number is below [2^24]. *)
Theorem getInt24_getUint24_agree (b : list byte) :
  getInt24 b = getUint24 b /\
  (getUint24 b = None <-> (length b < 3)%nat) /\
  (forall v, getUint24 b = Some v -> 0 <= v <= 2 ^ 24 - 1).
Proof.
  destruct b as [|b0 [|b1 [|b2 tl]]];
    try (split; [reflexivity|]; split;
         [split; [cbn; lia | reflexivity] | discriminate]).
  rewrite getInt24_sum, getUint24_sum. split; [reflexivity|]. split.
  - split; [discriminate | cbn; lia].
  - intros v [= <-].
    pose proof (byteZ_range b0). pose proof (byteZ_range b1).
    pose proof (byteZ_range b2). lia.
Qed.

(** ** Peeks, skips and tags at the cursor *)

(** X6. [ReadTag] takes any fifteen bytes for a tag: it checks neither the
    four bytes of previous-tag size nor the type byte.  With the cursor
    before the bytes [p0 .. p3, ty, s0 s1 s2, t0 t1 t2 t3, i0 i1 i2] it
    returns the tag of type [ty], size [s0 s1 s2] (big-endian), time
    [t0 t1 t2] (big-endian) with [t3] as bits 24-31, and stream
    [i0 i1 i2] (big-endian), whatever [p0 .. p3] are. *)
Theorem ReadTag_decodes_region (q : nat) (r : fileReader)
        (p0 p1 p2 p3 ty s0 s1 s2 t0 t1 t2 t3 i0 i1 i2 : byte)
        (tl : list byte) :
  file_ok r -> std_seek r -> cursor_at q r ->
  skipn q (data (rd (fb r)))
  = p0 :: p1 :: p2 :: p3 :: ty :: s0 :: s1 :: s2 :: t0 :: t1 :: t2 :: t3
       :: i0 :: i1 :: i2 :: tl ->
  snd (ReadTag r)
  = Ok (mkTag ty (be24 s0 s1 s2) (be24 t0 t1 t2 + byteZ t3 * 2 ^ 24)
              (be24 i0 i1 i2)).
Proof.
  intros Hok Hstd Hc Hd.
  assert (Hlen : (q + 15 <= length (data (rd (fb r))))%nat).
  { apply (f_equal (@length byte)) in Hd. rewrite length_skipn in Hd.
    cbn [length] in Hd. lia. }
  destruct (ReadTag_cursor q r Hok Hstd Hc Hlen) as (r2 & t & -> & Ht & _).
  cbn [snd]. rewrite Hd in Ht. unfold tag_of_region in Ht.
  cbn [firstn nth_error skipn] in Ht.
  rewrite getInt24_sum, getTime_sum, getUint24_sum in Ht.
  injection Ht as <-. reflexivity.
Qed.

Lemma ReadTag_decodes_region_witness :
  snd (ReadTag (fst (ReadHeader (sample_reader None))))
  = Ok (mkTag x09 (be24 x00 x00 x05) (be24 x00 x00 x00 + byteZ x00 * 2 ^ 24)
              (be24 x00 x00 x00)).
Proof.
  apply (ReadTag_decodes_region 9 _ x00 x00 x00 x00 x09 x00 x00 x05
           x00 x00 x00 x00 x00 x00 x00
           (sample_payload1 ++ (sample_region2 ++ sample_payload2)
              ++ sample_trailer)).
  - split; [reflexivity | vm_compute; lia].
  - left. reflexivity.
  - exists 0%nat. split; [reflexivity|]. split; vm_compute; congruence.
  - reflexivity.
Defined.

(** X7. A peek is consumed by the next one: two calls of [next] in a row
    return consecutive pieces of the input, the second one starting where
    the first one ended, and leave the cursor after both. *)
Theorem next_twice_consecutive (n m : Z) (q : nat) (r : fileReader) :
  file_ok r -> std_seek r -> cursor_at q r ->
  0 < n <= 16 -> 0 < m <= 16 ->
  Z.of_nat q + n + m <= Z.of_nat (length (data (rd (fb r)))) ->
  let d := data (rd (fb r)) in
  let r1 := fst (next n r) in
  snd (next n r) = Ok (firstn (Z.to_nat n) (skipn q d)) /\
  snd (next m r1) = Ok (firstn (Z.to_nat m) (skipn (q + Z.to_nat n) d)) /\
  cursor_at (q + Z.to_nat n + Z.to_nat m) (fst (next m r1)).
Proof.
  intros Hok Hstd Hc Hn Hm Hlen d r1. subst d r1.
  destruct (next_cursor n q r Hok (fun _ => Hstd) Hc Hn ltac:(lia))
    as (r1 & -> & Hok1 & Hfs1 & Hd1 & Hp1 & HN1 & _).
  cbn [fst snd]. split; [reflexivity|].
  assert (Hc1 : cursor_at (q + Z.to_nat n) r1)
    by (exists q; split; [exact Hp1 | lia]).
  assert (Hstd1 : std_seek r1) by (eapply std_seek_fs; eassumption).
  destruct (next_cursor m _ r1 Hok1 (fun _ => Hstd1) Hc1 Hm)
    as (r2 & -> & _ & _ & _ & Hp2 & HN2 & _); [rewrite Hd1; lia|].
  cbn [fst snd]. rewrite Hd1. split; [reflexivity|].
  eexists. split; [exact Hp2 | lia].
Qed.

Lemma next_twice_consecutive_witness :
  let r := sample_reader (Some file_seek) in
  let d := data (rd (fb r)) in
  let r1 := fst (next 9 r) in
  snd (next 9 r) = Ok (firstn (Z.to_nat 9) (skipn 0 d)) /\
  snd (next 15 r1) = Ok (firstn (Z.to_nat 15) (skipn (0 + Z.to_nat 9) d)) /\
  cursor_at (0 + Z.to_nat 9 + Z.to_nat 15) (fst (next 15 r1)).
Proof.
  intros r.
  apply (next_twice_consecutive 9 15 0 r).
  - split; [reflexivity | vm_compute; lia].
  - right. reflexivity.
  - exists 0%nat. split; [reflexivity|]. split; vm_compute; congruence.
  - lia.
  - lia.
  - vm_compute. congruence.
Defined.

(** X8. [skip] only marks: it reads nothing and leaves the buffer alone.
    A positive [n] moves the cursor forward by [n] (as long as the counter
    stays an [int64]), so that the next peek returns the bytes [n]
    further on; an [n] that is zero or negative changes nothing. *)
Theorem skip_moves_cursor (n m : Z) (q : nat) (r : fileReader) :
  file_ok r -> std_seek r -> cursor_at q r ->
  lN r + n < 2 ^ 63 -> 0 < m <= 16 ->
  Z.of_nat q + Z.max n 0 + m <= Z.of_nat (length (data (rd (fb r)))) ->
  fb (skip n r) = fb r /\
  (n <= 0 -> skip n r = r) /\
  cursor_at (q + Z.to_nat n) (skip n r) /\
  snd (next m (skip n r))
  = Ok (firstn (Z.to_nat m) (skipn (q + Z.to_nat n) (data (rd (fb r))))).
Proof.
  intros Hok Hstd (p & Hp & HN & Hq) Hov Hm Hlen.
  assert (Hfb : fb (skip n r) = fb r)
    by (unfold skip; destruct (0 <? n); reflexivity).
  assert (Hfs : fs (skip n r) = fs r)
    by (unfold skip; destruct (0 <? n); reflexivity).
  assert (HlN : lN (skip n r) = lN r + Z.max n 0).
  { unfold skip. destruct (Z.ltb_spec 0 n); cbn [lN]; [|lia].
    rewrite wrap64_small; lia. }
  assert (Hc : cursor_at (q + Z.to_nat n) (skip n r)).
  { exists p. rewrite Hfb, HlN. split; [exact Hp | lia]. }
  split; [exact Hfb|]. split; [|split; [exact Hc|]].
  - intros Hn. unfold skip.
    replace (0 <? n) with false by (symmetry; apply Z.ltb_ge; lia).
    reflexivity.
  - assert (Hok' : file_ok (skip n r)) by (unfold file_ok; now rewrite Hfb).
    assert (Hstd' : std_seek (skip n r)) by (eapply std_seek_fs; eassumption).
    destruct (next_cursor m _ (skip n r) Hok' (fun _ => Hstd') Hc Hm)
      as (r2 & -> & _); [rewrite Hfb; lia|].
    cbn [snd]. now rewrite Hfb.
Qed.

Lemma skip_moves_cursor_witness :
  let r := sample_reader None in
  fb (skip 9 r) = fb r /\
  (9 <= 0 -> skip 9 r = r) /\
  cursor_at (0 + Z.to_nat 9) (skip 9 r) /\
  snd (next 15 (skip 9 r))
  = Ok (firstn (Z.to_nat 15) (skipn (0 + Z.to_nat 9) (data (rd (fb r))))).
Proof.
  intros r.
  apply (skip_moves_cursor 9 15 0 r).
  - split; [reflexivity | vm_compute; lia].
  - left. reflexivity.
  - exists 0%nat. split; [reflexivity|]. split; vm_compute; congruence.
  - vm_compute. reflexivity.
  - lia.
  - vm_compute. congruence.
Defined.

(** X9. On an input of fewer than nine bytes (the empty input too)
    [ReadHeader] returns [io.EOF], not a format error, whatever the bytes
    are; nothing is consumed and nothing is pending afterwards. *)
Theorem ReadHeader_short_input (s : Source) :
  upos s = 0%nat -> (length (data s) < 9)%nat ->
  let r := newFileReader (FromSource s) in
  snd (ReadHeader r) = Err EOF /\
  lN (fst (ReadHeader r)) = 0 /\
  rest (fb (fst (ReadHeader r))) = data s.
Proof.
  intros Hp Hlen r. subst r.
  destruct (fresh_reader s Hp) as (Hok & (p & Hp0 & _ & Hq) & HN & _ & Hd).
  assert (p = 0%nat) by lia. subst p.
  unfold ReadHeader.
  destruct (next 9 (newFileReader (FromSource s))) as [r1 res] eqn:En.
  assert (Hstd : 0 < lN (newFileReader (FromSource s)) ->
                 std_seek (newFileReader (FromSource s))) by (rewrite HN; lia).
  destruct (next_spec 9 _ _ _ Hok Hstd ltac:(lia) ltac:(lia) En)
    as (_ & _ & Hmv & Hres).
  pose proof (at_pos_rest_length _ _ Hp0) as Hl. rewrite Hd in Hl.
  rewrite HN in *. destruct Hres as [(Hle & _) | (_ & -> & HN1)]; [lia|].
  cbn [fst snd]. split; [reflexivity|]. split; [lia|].
  destruct Hmv as (_ & _ & ->). cbn [Z.to_nat skipn].
  unfold at_pos in Hp0. now rewrite Hp0, Hd.
Qed.

Lemma ReadHeader_short_input_witness :
  let s := sample_source [x46; x4c; x56; x01; x05] None in
  let r := newFileReader (FromSource s) in
  snd (ReadHeader r) = Err EOF /\
  lN (fst (ReadHeader r)) = 0 /\
  rest (fb (fst (ReadHeader r))) = data s.
Proof.
  intros s. apply (ReadHeader_short_input s); [reflexivity | cbn; lia].
Defined.

(** ** The payload stream and the end of the input *)

Lemma ReadTag_unfold (r : fileReader) :
  ReadTag r =
  let (r1, res) := next 15 r in
  match res with
  | Err e => (r1, Err e)
  | Ok b =>
      match tag_of_region b with
      | Some tag =>
          let (r2, res2) := reader (Size tag) r1 in
          match res2 with
          | Err e => (r2, Err e)
          | Ok _ => (r2, Ok tag)
          end
      | None => (r1, Err PanicIndex)
      end
  end.
Proof.
  unfold ReadTag, tag_of_region. destruct (next 15 r) as [r1 [b|e]];
    [|reflexivity].
  destruct (nth_error b 4); [|reflexivity].
  destruct (getInt24 (skipn 5 b)); [|reflexivity].
  destruct (getTime (skipn 8 b)); [|reflexivity].
  destruct (getUint24 (skipn 12 b)); reflexivity.
Qed.

(** The state that [ReadTag] leaves after a tag, in terms of the input
    that follows the tag's fixed region. *)
Lemma ReadTag_then_payload (q : nat) (r : fileReader) (region after : list byte)
      (size : Z) :
  file_ok r -> std_seek r -> cursor_at q r ->
  length region = 15%nat -> getInt24 (skipn 5 region) = Some size ->
  skipn q (data (rd (fb r))) = region ++ after ->
  exists r2 tag,
    ReadTag r = (r2, Ok tag) /\ Size tag = size /\
    file_ok r2 /\ std_seek r2 /\ lN r2 = size /\ rest (fb r2) = after.
Proof.
  intros Hok Hstd Hc Hl Hsz Hd.
  assert (Hlen : (q + 15 <= length (data (rd (fb r))))%nat).
  { apply (f_equal (@length byte)) in Hd.
    rewrite length_skipn, length_app in Hd. lia. }
  destruct (ReadTag_cursor q r Hok Hstd Hc Hlen)
    as (r2 & tag & Et & Ht & Hok2 & Hfs2 & Hd2 & Hp2 & HN2 & _).
  rewrite Hd in Ht. rewrite firstn_app_le in Ht by lia.
  rewrite firstn_all2 in Ht by lia.
  destruct (tag_of_region_size _ _ Ht) as [Hsz' _].
  assert (Hsize : Size tag = size) by congruence.
  exists r2, tag. split; [exact Et|]. split; [exact Hsize|].
  split; [exact Hok2|]. split; [eapply std_seek_fs; eassumption|].
  split; [congruence|].
  unfold at_pos in Hp2. rewrite Hp2, Hd2.
  replace (q + 15)%nat with (15 + q)%nat by lia.
  rewrite <- skipn_skipn, Hd, skipn_app_le by lia.
  rewrite skipn_all2 by lia. reflexivity.
Qed.

(** X10. The payload stream of a tag yields the tag's payload and nothing
    more.  After [ReadTag] on a tag whose payload [snd t] is in the input,
    [io.ReadFull] of the payload's length returns exactly the payload;
    asking for more returns the payload and [io.ErrUnexpectedEOF]
    ([io.EOF] for an empty payload) although more input follows; and once
    the payload is read every [Read] of the stream returns [io.EOF]. *)
Theorem payload_stream_exact (q k : nat) (r : fileReader) (t : TagBytes)
        (tl : list byte) :
  file_ok r -> std_seek r -> cursor_at q r -> tag_ok t ->
  skipn q (data (rd (fb r))) = fst t ++ snd t ++ tl ->
  let r2 := fst (ReadTag r) in
  let n := length (snd t) in
  snd (ReadFull n r2) = (snd t, None) /\
  snd (ReadFull (n + S k) r2)
  = (snd t, Some (if (n =? 0)%nat then EOF else ErrUnexpectedEOF)) /\
  (forall m, snd (limited_Read m (fst (ReadFull n r2))) = ([], Some EOF)).
Proof.
  intros Hok Hstd Hc [Hl Hsz] Hd r2 n. subst r2 n.
  destruct (ReadTag_then_payload q r _ _ _ Hok Hstd Hc Hl Hsz Hd)
    as (r2 & tag & -> & _ & Hok2 & _ & HN2 & Hr2).
  cbn [fst]. set (n := length (snd t)) in *.
  assert (Hk : forall m, (n <= m)%nat ->
             Nat.min m (Nat.min (Z.to_nat (lN r2)) (length (rest (fb r2)))) = n).
  { intros m Hm. rewrite HN2, Hr2, length_app. fold n. lia. }
  assert (Hfirst : firstn n (rest (fb r2)) = snd t).
  { rewrite Hr2, firstn_app_le by (subst n; lia). apply firstn_all. }
  split; [|split].
  - destruct (ReadFull n r2) as [r3 [bs e]] eqn:E. cbn [snd].
    destruct (ReadFull_spec _ _ _ _ _ Hok2 E) as (_ & _ & _ & _ & -> & ->).
    rewrite (Hk n) by lia. rewrite Nat.leb_refl. now rewrite Hfirst.
  - destruct (ReadFull (n + S k) r2) as [r3 [bs e]] eqn:E. cbn [snd].
    destruct (ReadFull_spec _ _ _ _ _ Hok2 E) as (_ & _ & _ & _ & -> & ->).
    rewrite (Hk (n + S k)%nat) by lia. rewrite Hfirst.
    replace (n + S k <=? n)%nat with false
      by (symmetry; apply Nat.leb_gt; lia).
    destruct n; reflexivity.
  - intros m. destruct (ReadFull n r2) as [r3 [bs e]] eqn:E. cbn [fst].
    destruct (ReadFull_spec _ _ _ _ _ Hok2 E) as (_ & _ & _ & HN3 & _).
    rewrite (Hk n) in HN3 by lia.
    unfold limited_Read.
    replace (lN r3 <=? 0) with true by (symmetry; apply Z.leb_le; lia).
    reflexivity.
Qed.

Lemma payload_stream_exact_witness :
  let r := fst (ReadHeader (sample_reader (Some file_seek))) in
  let t := (sample_region1, sample_payload1) in
  let r2 := fst (ReadTag r) in
  let n := length (snd t) in
  snd (ReadFull n r2) = (snd t, None) /\
  snd (ReadFull (n + 3) r2)
  = (snd t, Some (if (n =? 0)%nat then EOF else ErrUnexpectedEOF)) /\
  (forall m, snd (limited_Read m (fst (ReadFull n r2))) = ([], Some EOF)).
Proof.
  intros r t.
  apply (payload_stream_exact 9 2 r t
           ((sample_region2 ++ sample_payload2) ++ sample_trailer)).
  - split; [reflexivity | vm_compute; lia].
  - right. reflexivity.
  - exists 0%nat. split; [reflexivity|]. split; vm_compute; congruence.
  - split; reflexivity.
  - reflexivity.
Defined.

Lemma at_end_ReadTag (r : fileReader) :
  at_end r -> snd (ReadTag r) = Err EOF /\ at_end (fst (ReadTag r)).
Proof.
  intros (Hok & Hstd & HN & Hl). rewrite ReadTag_unfold.
  destruct (next 15 r) as [r1 res] eqn:En.
  destruct (next_spec 15 _ _ _ Hok (fun _ => Hstd) ltac:(lia) ltac:(lia) En)
    as (Hok1 & Hfs1 & Hmv1 & Hres).
  destruct Hres as [(Hle & _) | (_ & -> & HN1)]; [lia|].
  cbn [fst snd]. split; [reflexivity|].
  split; [exact Hok1|]. split; [eapply std_seek_fs; eassumption|].
  split; [lia|]. destruct Hmv1 as (_ & _ & ->). rewrite length_skipn. lia.
Qed.

Lemma ReadTag_failed_at_end (r : fileReader) (e : error) :
  file_ok r -> std_seek r -> snd (ReadTag r) = Err e ->
  at_end (fst (ReadTag r)).
Proof.
  intros Hok Hstd H. pose proof (ReadTag_unfold r) as Hu.
  destruct (next 15 r) as [r1 res] eqn:En.
  destruct (next_spec 15 _ _ _ Hok (fun _ => Hstd) ltac:(lia) ltac:(lia) En)
    as (Hok1 & Hfs1 & Hmv1 & Hres).
  assert (Hstd1 : std_seek r1) by (eapply std_seek_fs; eassumption).
  destruct Hres as [(Hle & -> & HN1 & Hb1) | (Hlt & -> & HN1)].
  - exfalso.
    set (b := firstn (Z.to_nat 15) (skipn (Z.to_nat (lN r)) (rest (fb r)))) in *.
    assert (Hbl : length b = 15%nat).
    { subst b. rewrite length_firstn, length_skipn. lia. }
    destruct (tag_of_region_total b Hbl) as [t Ht]. rewrite Ht in Hu.
    assert (Hrl : lN r1 <= Z.of_nat (length (rest (fb r1)))).
    { unfold Buffered, rest in *. rewrite length_app. lia. }
    destruct (reader (Size t) r1) as [r2 res2] eqn:Er.
    destruct (reader_spec _ _ _ _ Hok1 (fun _ => Hstd1) Hrl Er)
      as (_ & _ & _ & -> & _).
    rewrite Hu in H. discriminate H.
  - rewrite Hu. cbn [fst].
    split; [exact Hok1|]. split; [exact Hstd1|]. split; [lia|].
    destruct Hmv1 as (_ & _ & ->). rewrite length_skipn. lia.
Qed.

Lemma at_end_again (n : nat) (r : fileReader) :
  at_end r -> at_end (ReadTag_again n r).
Proof.
  intros H. induction n as [|n IH]; [exact H|].
  cbn [ReadTag_again Nat.iter]. fold (ReadTag_again n r).
  apply at_end_ReadTag, IH.
Qed.

(** X11. The end of the input stays the end: over a source whose contents
    are fixed (one that cannot seek, or one that seeks as a regular file
    does), once [ReadTag] has returned [io.EOF] every [ReadTag] after it
    returns [io.EOF] too, however many are made. *)
Theorem ReadTag_EOF_persists (n : nat) (r : fileReader) :
  file_ok r -> std_seek r -> snd (ReadTag r) = Err EOF ->
  snd (ReadTag (ReadTag_again n (fst (ReadTag r)))) = Err EOF.
Proof.
  intros Hok Hstd H.
  apply at_end_ReadTag, at_end_again.
  apply (ReadTag_failed_at_end r EOF Hok Hstd H).
Qed.

Lemma ReadTag_EOF_persists_witness :
  let r := fst (ReadHeader
                  (newFileReader
                     (FromSource (sample_source sample_header None)))) in
  snd (ReadTag (ReadTag_again 3 (fst (ReadTag r)))) = Err EOF.
Proof.
  intros r. apply (ReadTag_EOF_persists 3 r).
  - split; [reflexivity | vm_compute; lia].
  - left. reflexivity.
  - vm_compute. reflexivity.
Defined.

(** X12. [ReadTag] does not check that the payload it announces is in the
    input.  On a tag whose size field says [size] while fewer bytes follow,
    it returns the tag with that [Size]; the payload stream then yields the
    bytes that are there and [io.ErrUnexpectedEOF] ([io.EOF] when there is
    none); and the next [ReadTag] returns [io.EOF]. *)
Theorem ReadTag_truncated_payload (q : nat) (r : fileReader)
        (region partial : list byte) (size : Z) :
  file_ok r -> std_seek r -> cursor_at q r ->
  length region = 15%nat -> getInt24 (skipn 5 region) = Some size ->
  skipn q (data (rd (fb r))) = region ++ partial ->
  Z.of_nat (length partial) < size ->
  let r2 := fst (ReadTag r) in
  (exists tag, snd (ReadTag r) = Ok tag /\ Size tag = size) /\
  snd (ReadFull (Z.to_nat size) r2)
  = (partial, Some (if (length partial =? 0)%nat then EOF
                    else ErrUnexpectedEOF)) /\
  snd (ReadTag r2) = Err EOF.
Proof.
  intros Hok Hstd Hc Hl Hsz Hd Hshort r2. subst r2.
  destruct (ReadTag_then_payload q r _ _ _ Hok Hstd Hc Hl Hsz Hd)
    as (r2 & tag & -> & Hsize & Hok2 & Hstd2 & HN2 & Hr2).
  cbn [fst snd]. split; [exists tag; split; [reflexivity | exact Hsize]|].
  split.
  - destruct (ReadFull (Z.to_nat size) r2) as [r3 [bs e]] eqn:E. cbn [snd].
    destruct (ReadFull_spec _ _ _ _ _ Hok2 E) as (_ & _ & _ & _ & -> & ->).
    rewrite HN2, Hr2.
    replace (Nat.min (Z.to_nat size)
               (Nat.min (Z.to_nat size) (length partial)))
      with (length partial) by lia.
    rewrite firstn_all.
    replace (Z.to_nat size <=? length partial)%nat with false
      by (symmetry; apply Nat.leb_gt; lia).
    destruct (length partial); reflexivity.
  - apply ReadTag_short_input; try assumption. rewrite HN2, Hr2. lia.
Qed.

Lemma ReadTag_truncated_payload_witness :
  let r := fst (ReadHeader
                  (newFileReader
                     (FromSource
                        (sample_source
                           (sample_header ++ sample_region1 ++ [x0a; x0b])
                           None)))) in
  let r2 := fst (ReadTag r) in
  (exists tag, snd (ReadTag r) = Ok tag /\ Size tag = 5) /\
  snd (ReadFull (Z.to_nat 5) r2)
  = ([x0a; x0b], Some (if (length [x0a; x0b] =? 0)%nat then EOF
                       else ErrUnexpectedEOF)) /\
  snd (ReadTag r2) = Err EOF.
Proof.
  intros r.
  apply (ReadTag_truncated_payload 9 r sample_region1 [x0a; x0b] 5).
  - split; [reflexivity | vm_compute; lia].
  - left. reflexivity.
  - exists 0%nat. split; [reflexivity|]. split; vm_compute; congruence.
  - reflexivity.
  - reflexivity.
  - reflexivity.
  - cbn. lia.
Defined.

(** ** No index out of range *)

Lemma validate_any_seeker (r r1 : fileReader) (e : option error) :
  file_ok r -> validate r = (r1, e) ->
  file_ok r1 /\ (e = None \/ e = Some EOF \/ e = Some ErrSeek).
Proof.
  intros Hok H.
  destruct (Z.le_gt_cases (lN r) 0) as [Hle | Hgt].
  - rewrite validate_noop in H by exact Hle. injection H as <- <-.
    split; [exact Hok | now left].
  - destruct (Z.lt_ge_cases (Buffered (fb r)) (lN r)) as [Hlt | Hge];
      [destruct (fs r) as [sk|] eqn:Efs|].
    + rewrite (validate_seek r sk Hgt Hlt Efs) in H. unfold src_Seek in H.
      destruct Hok as [_ Hsz].
      destruct (sk _ _); injection H as <- <-;
        (split; [split; [reflexivity | exact Hsz]|]); [now left | now right; right].
    + rewrite validate_discard in H by (try lia; now right).
      destruct (Discard (lN r) (fb r)) as [b1 e1] eqn:Ed.
      injection H as <- <-.
      destruct (Discard_spec _ _ _ _ Hok Hgt Ed)
        as (Hok1 & [(_ & _ & ->) | (_ & _ & ->)]);
        (split; [exact Hok1|]); [now left | now right; left].
    + rewrite validate_discard in H by (try lia; now left).
      destruct (Discard (lN r) (fb r)) as [b1 e1] eqn:Ed.
      injection H as <- <-.
      destruct (Discard_spec _ _ _ _ Hok Hgt Ed)
        as (Hok1 & [(_ & _ & ->) | (_ & _ & ->)]);
        (split; [exact Hok1|]); [now left | now right; left].
Qed.

Lemma next_any_seeker (n : Z) (r r1 : fileReader) (res : result (list byte)) :
  file_ok r -> 0 <= n <= 16 -> next n r = (r1, res) ->
  (exists bs, res = Ok bs /\ length bs = Z.to_nat n /\ file_ok r1) \/
  res = Err EOF \/ res = Err ErrSeek.
Proof.
  intros Hok Hn H. unfold next in H.
  destruct (validate r) as [r0 e] eqn:Ev.
  destruct (validate_any_seeker _ _ _ Hok Ev) as (Hok0 & He).
  destruct He as [-> | [-> | ->]];
    [|injection H as <- <-; now right; left
     |injection H as <- <-; now right; right].
  destruct (Peek n (fb r0)) as [b1 [bs e1]] eqn:Ep.
  assert (Hsz0 : (Z.to_nat n <= bsize (fb r0))%nat) by (destruct Hok0; lia).
  destruct (Peek_spec _ _ _ _ _ Hok0 (proj1 Hn) Hsz0 Ep)
    as (_ & Hok1 & [(Hle & -> & -> & _) | (_ & ->)]).
  - injection H as <- <-. left. eexists. split; [reflexivity|].
    split; [|exact Hok1]. rewrite length_firstn. lia.
  - injection H as <- <-. now right; left.
Qed.

(** X13. [ReadHeader] and [ReadTag] never index out of range: the slices
    they take of the peeked bytes ([b[3]], [b[4]], [b[5:]], [b[8:]],
    [b[12:]]) and the bounds checks of the decoders always succeed, for
    every input and every kind of source, because a peek that returns no
    error returns all the bytes asked for. *)
Theorem no_index_panic (r : fileReader) :
  file_ok r ->
  snd (ReadHeader r) <> Err PanicIndex /\ snd (ReadTag r) <> Err PanicIndex.
Proof.
  intros Hok. split.
  - unfold ReadHeader. destruct (next 9 r) as [r1 res] eqn:En.
    destruct (next_any_seeker 9 _ _ _ Hok ltac:(lia) En)
      as [(b & -> & Hl & _) | [-> | ->]]; try discriminate.
    do 9 (destruct b as [|? b]; [discriminate Hl|]).
    rewrite getUint24_sum. cbn [skipn nth_error]. rewrite getUint32_sum.
    destruct (negb _); [discriminate|]. destruct (negb _); discriminate.
  - rewrite ReadTag_unfold. destruct (next 15 r) as [r1 res] eqn:En.
    destruct (next_any_seeker 15 _ _ _ Hok ltac:(lia) En)
      as [(b & -> & Hl & Hok1) | [-> | ->]]; try discriminate.
    destruct (tag_of_region_total b Hl) as [t ->].
    unfold reader. destruct (validate r1) as [r0 e] eqn:Ev.
    destruct (validate_any_seeker _ _ _ Hok1 Ev) as (_ & [-> | [-> | ->]]);
      discriminate.
Qed.

Lemma no_index_panic_witness :
  snd (ReadHeader (sample_reader (Some pipe_seek))) <> Err PanicIndex /\
  snd (ReadTag (sample_reader (Some pipe_seek))) <> Err PanicIndex.
Proof.
  apply (no_index_panic (sample_reader (Some pipe_seek))).
  split; [reflexivity | vm_compute; lia].
Defined.

(** ** Edges of the header and of the resolution *)

(** X14. [ReadHeader] does not compare the header length it reads with
    the input: a valid header that declares more bytes than the input
    holds is accepted, and it is the next [ReadTag] that fails, with
    [io.EOF]. *)
Theorem ReadHeader_length_beyond_input (s : Source) (L : Z) :
  upos s = 0%nat -> (seek s = None \/ seek s = Some file_seek) ->
  (9 <= length (data s))%nat ->
  firstn 3 (data s) = [x46; x4c; x56] -> nth 3 (data s) x00 = x01 ->
  getUint32 (skipn 5 (data s)) = Some L ->
  Z.of_nat (length (data s)) < L ->
  snd (ReadHeader (newFileReader (FromSource s)))
  = Ok (mkHeader (nth 4 (data s) x00)) /\
  snd (ReadTag (fst (ReadHeader (newFileReader (FromSource s))))) = Err EOF.
Proof.
  intros Hp Hseek Hlen Hsig Hver HL Hbig.
  destruct (ReadHeader_valid s L Hp Hlen Hsig Hver HL)
    as (r1 & -> & Hok1 & Hfs1 & Hd1 & Hp1 & HN1 & _).
  cbn [fst snd]. split; [reflexivity|].
  apply ReadTag_short_input; [exact Hok1 | |].
  - unfold std_seek. rewrite Hfs1. exact Hseek.
  - rewrite (at_pos_rest_length _ _ Hp1), Hd1, HN1. lia.
Qed.

Lemma ReadHeader_length_beyond_input_witness :
  let s := sample_source
             ([x46; x4c; x56; x01; x05; x00; x00; x01; x00] ++ sample_region1)
             (Some file_seek) in
  snd (ReadHeader (newFileReader (FromSource s)))
  = Ok (mkHeader (nth 4 (data s) x00)) /\
  snd (ReadTag (fst (ReadHeader (newFileReader (FromSource s))))) = Err EOF.
Proof.
  intros s.
  apply (ReadHeader_length_beyond_input s 256);
    [reflexivity | right; reflexivity | cbn; lia | reflexivity | reflexivity
    | reflexivity | cbn; lia].
Defined.

(** X15. The pending count is resolved once: [validate] run on the state
    that [validate] has left does nothing and returns no error, whatever
    the first run did and returned, so that nothing is skipped twice. *)
Theorem validate_idempotent (r : fileReader) :
  validate (fst (validate r)) = (fst (validate r), None).
Proof.
  apply validate_noop.
  destruct (Z.le_gt_cases (lN r) 0) as [Hle | Hgt].
  - rewrite validate_noop by exact Hle. exact Hle.
  - unfold validate.
    replace (lN r <=? 0) with false by (symmetry; apply Z.leb_gt; lia).
    destruct (if Buffered (fb r) <? lN r then fs r else None).
    + destruct (src_Seek _ _ _). cbn. lia.
    + destruct (Discard _ _). cbn. lia.
Qed.

(** X16. On a source that seeks as a regular file does, skipping more
    than is buffered, up to a cursor inside the input, reads none of the
    skipped bytes: [validate] makes no
    call of the source's [Read], drops the buffer and leaves the source
    exactly at the cursor, so that the next byte the source delivers is the
    first one after the skipped ones. *)
Theorem seek_lands_on_cursor (q : nat) (r : fileReader) :
  file_ok r -> fs r = Some file_seek -> cursor_at q r ->
  (upos (rd (fb r)) <= length (data (rd (fb r))))%nat ->
  (q <= length (data (rd (fb r))))%nat ->
  Buffered (fb r) < lN r ->
  snd (validate r) = None /\
  upos (rd (fb (fst (validate r)))) = q /\
  nreads (rd (fb (fst (validate r)))) = nreads (rd (fb r)) /\
  buf (fb (fst (validate r))) = [] /\ lN (fst (validate r)) = 0.
Proof.
  intros Hok Hfs (p & Hp & HN & Hq) Hu Hin Hb.
  assert (Hn : 0 < lN r) by (unfold Buffered in Hb; lia).
  assert (Hup : upos (rd (fb r)) = (p + length (buf (fb r)))%nat).
  { pose proof (at_pos_rest_length _ _ Hp) as Hl.
    unfold rest, srest in Hl. rewrite length_app, length_skipn in Hl.
    lia. }
  rewrite (validate_seek r file_seek Hn Hb Hfs).
  destruct (seek_moved (fb r) (lN r) Hb) as (s' & Hsk & Hu' & _).
  pose proof Hsk as Hsk'. unfold src_Seek in Hsk'.
  destruct (file_seek _ _); [|discriminate].
  injection Hsk' as Hs'. rewrite Hsk. cbn [fst snd fb rd buf lN].
  unfold Buffered in Hb.
  split; [reflexivity|]. split; [lia|]. split; [|split; reflexivity].
  subst s'. reflexivity.
Qed.

Lemma seek_lands_on_cursor_witness :
  let r := fst (ReadTag (fst (ReadHeader (sample_reader (Some file_seek))))) in
  snd (validate r) = None /\
  upos (rd (fb (fst (validate r)))) = 29%nat /\
  nreads (rd (fb (fst (validate r)))) = nreads (rd (fb r)) /\
  buf (fb (fst (validate r))) = [] /\ lN (fst (validate r)) = 0.
Proof.
  intros r.
  apply (seek_lands_on_cursor 29 r).
  - split; [reflexivity | vm_compute; lia].
  - reflexivity.
  - exists 24%nat. split; [reflexivity|]. split; vm_compute; congruence.
  - vm_compute. lia.
  - vm_compute. lia.
  - vm_compute. reflexivity.
Defined.
